(** * RowStream: a buffered, cancelable, backpressure-aware row cursor

    Shallow embedding of the [RowStream] class of db-driver-js and of its
    controller facade, followed by the properties of the cursor protocol:
    backpressure watermarks, completion signalling, error and close
    handling, FIFO delivery, and option validation.

    Modelling conventions.
    - The private fields of the class are the fields of the record
      [RowStream]; every method is a computation in the monad [M], which
      threads the object together with the part of the JavaScript runtime
      the class talks to (callback promises, the microtask queue, the
      event log, the canceler's registration).
    - A synchronous [throw] is the completion [Throw]; an [async] method
      never throws: it returns an [Async] value describing the promise it
      hands back.
    - [emit] appends to the event log. Listeners are taken not to call back
      into the stream while they run, so every method runs to completion.
    - The class throws plain [Error] objects; they are told apart by their
      message.
    - Counts ([pauseCount], [resumeCount], buffer sizes) are integers. *)

From Stdlib Require Import ZArith String List Bool Lia DecimalString.
From stdpp Require Import base list strings.
Import ListNotations.
Local Open Scope string_scope.
Local Open Scope list_scope.

(** ** JavaScript values and errors *)

(** An [Error] object; the class only ever looks at its message. *)
Record Error := mkError { message : string }.

(** The values a producer may hand to [error(err: unknown)]. *)
#[warnings="-register-all"]
Inductive JsValue :=
| JsNull
| JsUndefined
| JsBoolean (b : bool)
| JsNumber (n : Z)
| JsString (s : string)
| JsErrorInstance (e : Error)
| JsObject (props : list (string * JsValue)).

(** [String(v)]: the standard string conversion. *)
Definition js_String (v : JsValue) : string :=
  match v with
  | JsNull => "null"
  | JsUndefined => "undefined"
  | JsBoolean true => "true"
  | JsBoolean false => "false"
  | JsNumber n => NilZero.string_of_int (Z.to_int n)
  | JsString s => s
  | JsErrorInstance e =>
      if String.eqb (message e) "" then "Error" else "Error: " ++ message e
  | JsObject _ => "[object Object]"
  end.

(** Own-property lookup, used for ['message' in err]. *)
Fixpoint js_prop (k : string) (props : list (string * JsValue)) : option JsValue :=
  match props with
  | [] => None
  | (k', v) :: rest => if String.eqb k k' then Some v else js_prop k rest
  end.

Definition asError (err : JsValue) : option Error :=
  match err with
  | JsNull | JsUndefined => None
  | JsErrorInstance e => Some e
  | JsObject props =>
      match js_prop "message" props with
      | Some m => Some (mkError (js_String m))
      | None => Some (mkError (js_String err))
      end
  | _ => Some (mkError (js_String err))
  end.

(** ** Completions, promises, events *)

Inductive Completion (A : Type) :=
| Normal (a : A)
| Throw (e : Error).
Arguments Normal {A} a.
Arguments Throw {A} e.

(** Callback promises are named by the order of their creation. *)
Abbreviation PromiseId := nat (only parsing).

(** What a promise can be fulfilled with: [next] promises carry a boolean,
    [ready] promises an error or null, [close] promises nothing. *)
Inductive PValue :=
| VBool (b : bool)
| VError (e : option Error)
| VUnit.

Inductive Settlement :=
| Pending
| Fulfilled (v : PValue)
| Rejected (e : Error).

(** The promise an [async] method (or [ready]) returns. *)
Inductive Async (T : Type) :=
| Returned (v : T)
| Thrown (e : Error)
| Settles (p : PromiseId)
| AwaitThen (p : PromiseId) (v : T).
Arguments Returned {T} v.
Arguments Thrown {T} e.
Arguments Settles {T} p.
Arguments AwaitThen {T} p v.

(** [await a; return v] inside an [async] body. *)
Definition await_then {A T : Type} (a : Async A) (v : T) : Async T :=
  match a with
  | Returned _ => Returned v
  | Thrown e => Thrown e
  | Settles p => AwaitThen p v
  | AwaitThen p _ => AwaitThen p v
  end.

Inductive Event := EvPause | EvResume | EvCancel | EvComplete.

Global Instance Event_eq_dec : EqDecision Event.
Proof. solve_decision. Defined.

(** Number of occurrences of an event in a log. *)
Definition count_event (e : Event) (log : list Event) : nat :=
  count_occ Event_eq_dec log e.

Record ColumnInfo := mkColumnInfo {
  name : string;
  typeName : string;
  nullable : bool
}.

Module RowStreamOptions.
Record t := mk { pauseCount : option Z; resumeCount : option Z }.
End RowStreamOptions.

(** The first constructor argument: a canceler (it has [onCancel]) or the
    options. *)
Inductive CtorArg :=
| ArgCanceler
| ArgOptions (o : RowStreamOptions.t).

Local Open Scope Z_scope.

Definition _validateOptions (options : option RowStreamOptions.t)
  : Completion (bool * option Z * option Z) :=
  match options with
  | None => Normal (false, None, None)
  | Some options =>
      match RowStreamOptions.pauseCount options with
      | None =>
          match RowStreamOptions.resumeCount options with
          | Some _ => Throw (mkError "pauseCount must be provided with resumeCount")
          | None => Normal (false, None, None)
          end
      | Some pauseCount =>
          if pauseCount <? 2 then Throw (mkError "pauseCount must more than 1")
          else
            match RowStreamOptions.resumeCount options with
            | None => Normal (true, Some pauseCount, Some (pauseCount / 2))
            | Some resumeCount =>
                if resumeCount <? 0 then
                  Throw (mkError "resumeCount cannot be negative")
                else if resumeCount >=? pauseCount then
                  Throw (mkError "resumeCount must be less than pauseCount")
                else Normal (true, Some pauseCount, Some resumeCount)
            end
      end
  end.

(** ** The stream object and its runtime *)

Section Stream.

(** Rows and their constructors come from the data-model package. The
    field names are passed as the class holds them, possibly null. *)
Variable Row : Type.
Variable Row_fromArray : list JsValue -> option (list string) -> Row.
Variable Row_fromObject : list (string * JsValue) -> option (list string) -> Row.

(** The private fields of the class. [onCancel] tells whether the bound
    cancel callback is held, [clr] whether a canceler was given. *)
Record RowStream := mkRowStream {
  buf : list Row;
  pauseCount : option Z;
  resumeCount : option Z;
  canPause : bool;
  row : option Row;
  columns : option (list ColumnInfo);
  fieldNames : option (list string);
  err : option Error;
  ready : bool;
  done : bool;
  closing : bool;
  closed : bool;
  canceling : bool;
  paused : bool;
  waitReady : option PromiseId;
  waitNext : option PromiseId;
  waitClose : option PromiseId;
  onCancel : bool;
  clr : bool
}.

Definition with_buf (v : list Row) (o : RowStream) : RowStream :=
  mkRowStream v (pauseCount o) (resumeCount o) (canPause o) (row o) (columns
    o) (fieldNames o) (err o) (ready o) (done o) (closing o) (closed o)
    (canceling o) (paused o) (waitReady o) (waitNext o) (waitClose o)
    (onCancel o) (clr o).
Definition with_row (v : option Row) (o : RowStream) : RowStream :=
  mkRowStream (buf o) (pauseCount o) (resumeCount o) (canPause o) v (columns
    o) (fieldNames o) (err o) (ready o) (done o) (closing o) (closed o)
    (canceling o) (paused o) (waitReady o) (waitNext o) (waitClose o)
    (onCancel o) (clr o).
Definition with_columns (v : option (list ColumnInfo)) (o : RowStream) : RowStream :=
  mkRowStream (buf o) (pauseCount o) (resumeCount o) (canPause o) (row o) v
    (fieldNames o) (err o) (ready o) (done o) (closing o) (closed o)
    (canceling o) (paused o) (waitReady o) (waitNext o) (waitClose o)
    (onCancel o) (clr o).
Definition with_fieldNames (v : option (list string)) (o : RowStream) : RowStream :=
  mkRowStream (buf o) (pauseCount o) (resumeCount o) (canPause o) (row o)
    (columns o) v (err o) (ready o) (done o) (closing o) (closed o)
    (canceling o) (paused o) (waitReady o) (waitNext o) (waitClose o)
    (onCancel o) (clr o).
Definition with_err (v : option Error) (o : RowStream) : RowStream :=
  mkRowStream (buf o) (pauseCount o) (resumeCount o) (canPause o) (row o)
    (columns o) (fieldNames o) v (ready o) (done o) (closing o) (closed o)
    (canceling o) (paused o) (waitReady o) (waitNext o) (waitClose o)
    (onCancel o) (clr o).
Definition with_ready (v : bool) (o : RowStream) : RowStream :=
  mkRowStream (buf o) (pauseCount o) (resumeCount o) (canPause o) (row o)
    (columns o) (fieldNames o) (err o) v (done o) (closing o) (closed o)
    (canceling o) (paused o) (waitReady o) (waitNext o) (waitClose o)
    (onCancel o) (clr o).
Definition with_done (v : bool) (o : RowStream) : RowStream :=
  mkRowStream (buf o) (pauseCount o) (resumeCount o) (canPause o) (row o)
    (columns o) (fieldNames o) (err o) (ready o) v (closing o) (closed o)
    (canceling o) (paused o) (waitReady o) (waitNext o) (waitClose o)
    (onCancel o) (clr o).
Definition with_closing (v : bool) (o : RowStream) : RowStream :=
  mkRowStream (buf o) (pauseCount o) (resumeCount o) (canPause o) (row o)
    (columns o) (fieldNames o) (err o) (ready o) (done o) v (closed o)
    (canceling o) (paused o) (waitReady o) (waitNext o) (waitClose o)
    (onCancel o) (clr o).
Definition with_closed (v : bool) (o : RowStream) : RowStream :=
  mkRowStream (buf o) (pauseCount o) (resumeCount o) (canPause o) (row o)
    (columns o) (fieldNames o) (err o) (ready o) (done o) (closing o) v
    (canceling o) (paused o) (waitReady o) (waitNext o) (waitClose o)
    (onCancel o) (clr o).
Definition with_canceling (v : bool) (o : RowStream) : RowStream :=
  mkRowStream (buf o) (pauseCount o) (resumeCount o) (canPause o) (row o)
    (columns o) (fieldNames o) (err o) (ready o) (done o) (closing o)
    (closed o) v (paused o) (waitReady o) (waitNext o) (waitClose o)
    (onCancel o) (clr o).
Definition with_paused (v : bool) (o : RowStream) : RowStream :=
  mkRowStream (buf o) (pauseCount o) (resumeCount o) (canPause o) (row o)
    (columns o) (fieldNames o) (err o) (ready o) (done o) (closing o)
    (closed o) (canceling o) v (waitReady o) (waitNext o) (waitClose o)
    (onCancel o) (clr o).
Definition with_waitReady (v : option PromiseId) (o : RowStream) : RowStream :=
  mkRowStream (buf o) (pauseCount o) (resumeCount o) (canPause o) (row o)
    (columns o) (fieldNames o) (err o) (ready o) (done o) (closing o)
    (closed o) (canceling o) (paused o) v (waitNext o) (waitClose o)
    (onCancel o) (clr o).
Definition with_waitNext (v : option PromiseId) (o : RowStream) : RowStream :=
  mkRowStream (buf o) (pauseCount o) (resumeCount o) (canPause o) (row o)
    (columns o) (fieldNames o) (err o) (ready o) (done o) (closing o)
    (closed o) (canceling o) (paused o) (waitReady o) v (waitClose o)
    (onCancel o) (clr o).
Definition with_waitClose (v : option PromiseId) (o : RowStream) : RowStream :=
  mkRowStream (buf o) (pauseCount o) (resumeCount o) (canPause o) (row o)
    (columns o) (fieldNames o) (err o) (ready o) (done o) (closing o)
    (closed o) (canceling o) (paused o) (waitReady o) (waitNext o) v
    (onCancel o) (clr o).
Definition with_onCancel (v : bool) (o : RowStream) : RowStream :=
  mkRowStream (buf o) (pauseCount o) (resumeCount o) (canPause o) (row o)
    (columns o) (fieldNames o) (err o) (ready o) (done o) (closing o)
    (closed o) (canceling o) (paused o) (waitReady o) (waitNext o)
    (waitClose o) v (clr o).

(** The runtime around the object: the callback promises created so far
    (a promise's id is its index), the [then] reactions registered on them
    (source, target: fulfil the target with [false]), the microtask queue
    holding the reactions that are due, the events emitted so far, and
    whether the canceler still holds the stream's callback. *)
Record Runtime := mkRuntime {
  promises : list Settlement;
  reactions : list (PromiseId * PromiseId);
  microtasks : list PromiseId;
  emitted : list Event;
  subscribed : bool
}.

Record State := mkState { self : RowStream; env : Runtime }.

(** ** The method monad *)

Definition M (A : Type) : Type := State -> Completion A * State.

Definition ret {A} (a : A) : M A := fun s => (Normal a, s).

Definition bind {A B} (m : M A) (k : A -> M B) : M B :=
  fun s =>
    match m s with
    | (Normal a, s') => k a s'
    | (Throw e, s') => (Throw e, s')
    end.

Definition throw {A} (e : Error) : M A := fun s => (Throw e, s).

(** An [async] body: a throw becomes the rejection of the returned promise. *)
Definition async {T} (m : M (Async T)) : M (Async T) :=
  fun s =>
    match m s with
    | (Throw e, s') => (Normal (Thrown e), s')
    | r => r
    end.

Definition this {A} (f : RowStream -> A) : M A := fun s => (Normal (f (self s)), s).

Definition update (f : RowStream -> RowStream) : M unit :=
  fun s => (Normal tt, mkState (f (self s)) (env s)).

Definition update_env (f : Runtime -> Runtime) : M unit :=
  fun s => (Normal tt, mkState (self s) (f (env s))).

Definition exec {A} (m : M A) (s : State) : State := snd (m s).
Definition result {A} (m : M A) (s : State) : Completion A := fst (m s).

Local Notation "x <- m ;; k" := (bind m (fun x => k))
  (at level 100, m at next level, right associativity).
Local Notation "m ;;; k" := (bind m (fun _ => k))
  (at level 100, right associativity).

(** ** Runtime primitives *)

(** [this.emit(e)] *)
Definition emit (e : Event) : M unit :=
  update_env (fun r =>
    mkRuntime (promises r) (reactions r) (microtasks r) (emitted r ++ [e])
      (subscribed r)).

(** [promise<T>()]: a fresh pending callback promise. *)
Definition promise : M PromiseId :=
  fun s =>
    let r := env s in
    (Normal (length (promises r)),
     mkState (self s)
       (mkRuntime (promises r ++ [Pending]) (reactions r) (microtasks r)
          (emitted r) (subscribed r))).

(** Settling a promise: only a pending promise changes. Fulfilment moves
    the reactions registered on it to the microtask queue. *)
Definition settle_in (p : PromiseId) (o : Settlement) (r : Runtime) : Runtime :=
  match promises r !! p with
  | Some Pending =>
      let due := List.filter (fun sr => Nat.eqb (fst sr) p) (reactions r) in
      let rest := List.filter (fun sr => negb (Nat.eqb (fst sr) p)) (reactions r) in
      mkRuntime (<[p := o]> (promises r)) rest
        (match o with
         | Fulfilled _ => microtasks r ++ map snd due
         | _ => microtasks r
         end)
        (emitted r) (subscribed r)
  | _ => r
  end.

(** [p.resolve(v)] and [p.reject(e)] *)
Definition resolve (p : PromiseId) (v : PValue) : M unit :=
  update_env (settle_in p (Fulfilled v)).

Definition reject (p : PromiseId) (e : Error) : M unit :=
  update_env (settle_in p (Rejected e)).

(** [src.then(() => tgt.resolve(false))] *)
Definition then_resolve_false (src tgt : PromiseId) : M unit :=
  update_env (fun r =>
    match promises r !! src with
    | Some Pending =>
        mkRuntime (promises r) (reactions r ++ [(src, tgt)]) (microtasks r)
          (emitted r) (subscribed r)
    | Some (Fulfilled _) =>
        mkRuntime (promises r) (reactions r) (microtasks r ++ [tgt])
          (emitted r) (subscribed r)
    | _ => r
    end).

(** Draining the microtask queue: every due reaction runs
    [tgt.resolve(false)]. *)
Definition run_microtasks : M unit :=
  update_env (fun r =>
    fold_left (fun r' tgt => settle_in tgt (Fulfilled (VBool false)) r')
      (microtasks r)
      (mkRuntime (promises r) (reactions r) [] (emitted r) (subscribed r))).

(** [clr.off(this.#onCancel)] *)
Definition clr_off : M unit :=
  update_env (fun r =>
    mkRuntime (promises r) (reactions r) (microtasks r) (emitted r) false).

(** The state of promise [p]. *)
Definition settlement (s : State) (p : PromiseId) : option Settlement :=
  promises (env s) !! p.

(** ** Construction *)

Definition new_RowStream (clrOrOptions : option CtorArg)
    (options : option RowStreamOptions.t) : Completion State :=
  let clr :=
    match clrOrOptions with Some ArgCanceler => true | _ => false end in
  let options :=
    match clrOrOptions with Some (ArgOptions o) => Some o | _ => options end in
  match _validateOptions options with
  | Throw e => Throw e
  | Normal (canPause, pauseCount, resumeCount) =>
      Normal
        (mkState
           (mkRowStream [] (if canPause then pauseCount else None)
              (if canPause then resumeCount else None) canPause
              None None None None false false false false false false
              None None None clr clr)
           (mkRuntime [] [] [] [] clr))
  end.

(** ** Private methods *)

Definition _resolveReady (e : option Error) : M unit :=
  update (with_ready true) ;;;
  wReady <- this waitReady ;;
  match wReady with
  | Some p => update (with_waitReady None) ;;; resolve p (VError e)
  | None => ret tt
  end.

Definition _setColumns (cols : list ColumnInfo) : M unit :=
  update (with_columns (Some cols)) ;;;
  update (with_fieldNames (Some (map name cols))) ;;;
  r <- this ready ;;
  if negb r then _resolveReady None else ret tt.

Definition _ensureFields (op : string) : M (list string) :=
  fn <- this fieldNames ;;
  match fn with
  | None => throw (mkError ("Cannot " ++ op ++ ": Column info not yet set"))
  | Some names => ret names
  end.

Definition _pause : M unit :=
  update (with_paused true) ;;; emit EvPause.

Definition _resume : M unit :=
  update (with_paused false) ;;; emit EvResume.

(** [n >= this.#pauseCount!]: a comparison with undefined is false. *)
Definition ge_count (n : Z) (c : option Z) : bool :=
  match c with Some c => c <=? n | None => false end.

Definition le_count (n : Z) (c : option Z) : bool :=
  match c with Some c => n <=? c | None => false end.

Definition _pushRow (r : Row) : M unit :=
  c <- this canceling ;;
  if c then ret tt
  else
    wnx <- this waitNext ;;
    b <- this buf ;;
    match b, wnx with
    | [], Some p =>
        update (with_waitNext None) ;;;
        update (with_row (Some r)) ;;;
        resolve p (VBool true)
    | _, _ =>
        update (with_buf (b ++ [r])) ;;;
        cp <- this canPause ;;
        if cp then
          pd <- this paused ;;
          if negb pd then
            b' <- this buf ;;
            pc <- this pauseCount ;;
            if ge_count (Z.of_nat (length b')) pc then _pause else ret tt
          else ret tt
        else ret tt
    end.

Definition _pushArray (r : list JsValue) : M unit :=
  fn <- this fieldNames ;;
  _pushRow (Row_fromArray r fn).

Definition _pushObject (r : list (string * JsValue)) : M unit :=
  fn <- this fieldNames ;;
  _pushRow (Row_fromObject r fn).

(** ** Consumer side: close *)

Definition close : M (Async unit) :=
  async (
    cl <- this closed ;;
    if cl then ret (Returned tt)
    else
      cg <- this closing ;;
      if cg then
        wc <- this waitClose ;;
        ret (match wc with Some p => Settles p | None => Returned tt end)
      else
        update (with_closing true) ;;;
        r <- this ready ;;
        (if negb r then _resolveReady None else ret tt) ;;;
        oc <- this onCancel ;;
        (if oc then clr_off ;;; update (with_onCancel false) else ret tt) ;;;
        wnx <- this waitNext ;;
        d <- this done ;;
        if d then
          update (with_closed true) ;;;
          update (with_closing false) ;;;
          (match wnx with
           | Some p => update (with_waitNext None) ;;; resolve p (VBool false)
           | None => ret tt
           end) ;;;
          ret (Returned tt)
        else
          c <- this canceling ;;
          (if negb c then update (with_canceling true) ;;; emit EvCancel
           else ret tt) ;;;
          waitClose' <- promise ;;
          update (with_waitClose (Some waitClose')) ;;;
          (match wnx with
           | Some p =>
               update (with_waitNext None) ;;; then_resolve_false waitClose' p
           | None => ret tt
           end) ;;;
          ret (Settles waitClose')).

(** ** Producer side: end, cancel, error *)

Definition _end : M unit :=
  update (with_done true) ;;;
  r <- this ready ;;
  (if negb r then _setColumns [] else ret tt) ;;;
  emit EvComplete ;;;
  wc <- this waitClose ;;
  (match wc with
   | Some p =>
       update (with_closed true) ;;;
       update (with_closing false) ;;;
       update (with_waitClose None) ;;;
       resolve p VUnit
   | None =>
       e <- this err ;;
       match e with
       | Some _ => update (with_closed true) ;;; update (with_closing false)
       | None => ret tt
       end
   end) ;;;
  wnx <- this waitNext ;;
  b <- this buf ;;
  match wnx, b with
  | Some _, [] => _ <- close ;; ret tt
  | _, _ => ret tt
  end.

Definition _cancel (e : Error) : M unit :=
  c <- this canceling ;;
  if c then ret tt
  else
    update (with_canceling true) ;;;
    update (with_err (Some e)) ;;;
    oc <- this onCancel ;;
    (if oc then clr_off ;;; update (with_onCancel false) else ret tt) ;;;
    emit EvCancel ;;;
    r <- this ready ;;
    (if negb r then _resolveReady (Some e) else ret tt) ;;;
    wnx <- this waitNext ;;
    (match wnx with
     | Some p => update (with_waitNext None) ;;; reject p e
     | None => ret tt
     end) ;;;
    _end.

(** The error [error(err)] stores: [asError(err) || new Error(...)]. *)
Definition normalize_error (v : JsValue) : Error :=
  match asError v with
  | Some e => e
  | None => mkError "Underlying stream encountered an error"
  end.

Definition _error (v : JsValue) : M unit :=
  let e := normalize_error v in
  update (with_err (Some e)) ;;;
  _cancel e ;;;
  _end.

(** ** Consumer side: next and the accessors *)

Definition next : M (Async bool) :=
  async (
    cl <- this closed ;;
    if cl then ret (Returned false)
    else
      cg <- this closing ;;
      if cg then
        a <- close ;;
        ret (await_then a false)
      else
        wn <- this waitNext ;;
        match wn with
        | Some _ => throw (mkError "Existing next() call has not yet resolved")
        | None =>
            b <- this buf ;;
            match b with
            | r :: rest =>
                update (with_row (Some r)) ;;;
                update (with_buf rest) ;;;
                cp <- this canPause ;;
                pd <- this paused ;;
                (if cp && pd then
                   b' <- this buf ;;
                   rc <- this resumeCount ;;
                   if le_count (Z.of_nat (length b')) rc then _resume
                   else ret tt
                 else ret tt) ;;;
                ret (Returned true)
            | [] =>
                d <- this done ;;
                if d then
                  a <- close ;;
                  ret (await_then a false)
                else
                  p <- promise ;;
                  update (with_waitNext (Some p)) ;;;
                  ret (Settles p)
            end
        end).

Definition get_columns : M (list string) :=
  fn <- this fieldNames ;;
  match fn with
  | None => throw (mkError "Column information not yet available")
  | Some names => ret names
  end.

Definition get_columnTypes : M (list ColumnInfo) :=
  cs <- this columns ;;
  match cs with
  | None => throw (mkError "Column information not yet available")
  | Some cs => ret cs
  end.

Definition get_err : M (option Error) := this err.

Definition get_row : M Row :=
  r <- this row ;;
  match r with
  | None => throw (mkError "No row loaded. Call next()")
  | Some r => ret r
  end.

(** [RowStream.isClosed] and [RowStream.size] *)
Definition isClosed (s : State) : bool := closed (self s).
Definition size (s : State) : nat := length (buf (self s)).

(** ** The controller facade *)

Definition Controller_ready : M (Async (option Error)) :=
  r <- this ready ;;
  if r then e <- this err ;; ret (Returned e)
  else
    w <- this waitReady ;;
    match w with
    | Some p => ret (Settles p)
    | None =>
        p <- promise ;;
        update (with_waitReady (Some p)) ;;;
        ret (Settles p)
    end.

Definition Controller_setColumns (cols : list ColumnInfo) : M unit :=
  _setColumns cols.

Definition Controller_pushRow (r : Row) : M unit :=
  _ensureFields "pushRow" ;;; _pushRow r.

Definition Controller_pushArray (r : list JsValue) : M unit :=
  _ensureFields "pushArray" ;;; _pushArray r.

Definition Controller_pushObject (r : list (string * JsValue)) : M unit :=
  _ensureFields "pushObject" ;;; _pushObject r.

Definition Controller_end : M unit := _end.

Definition Controller_error (v : JsValue) : M unit := _error v.

(** The canceler fires: it calls the callback registered with
    [clr.onCancel], if it still holds it. *)
Definition canceler_fire (e : Error) : M unit :=
  fun s => if subscribed (env s) then _cancel e s else (Normal tt, s).

(** ** Histories of calls *)

(** The calls the stream can receive: from the producer through the
    controller, from the canceler, from the consumer, and the runtime
    draining its microtask queue between two of them. *)
Inductive Call :=
| CtlReady
| CtlSetColumns (cols : list ColumnInfo)
| CtlPushRow (r : Row)
| CtlPushArray (r : list JsValue)
| CtlPushObject (r : list (string * JsValue))
| CtlEnd
| CtlError (v : JsValue)
| CancelerFire (e : Error)
| RowsNext
| RowsClose
| Microtasks.

(** The state a call leaves behind; a throw leaves the state reached when
    it was raised. *)
Definition perform (c : Call) (s : State) : State :=
  match c with
  | CtlReady => exec Controller_ready s
  | CtlSetColumns cols => exec (Controller_setColumns cols) s
  | CtlPushRow r => exec (Controller_pushRow r) s
  | CtlPushArray r => exec (Controller_pushArray r) s
  | CtlPushObject r => exec (Controller_pushObject r) s
  | CtlEnd => exec Controller_end s
  | CtlError v => exec (Controller_error v) s
  | CancelerFire e => exec (canceler_fire e) s
  | RowsNext => exec next s
  | RowsClose => exec close s
  | Microtasks => exec run_microtasks s
  end.

Definition run (s : State) (cs : list Call) : State :=
  fold_left (fun s' c => perform c s') cs s.

(** The states a stream can be in: those a constructed stream reaches
    through some history of calls. *)
Definition reachable (s : State) : Prop :=
  exists a o s0 cs, new_RowStream a o = Normal s0 /\ s = run s0 cs.

(** The events a computation adds to the log. *)
Definition emitted_by {A} (m : M A) (s : State) : list Event :=
  drop (length (emitted (env s))) (emitted (env (exec m s))).

(** ** The protocol invariant *)

(** The targets of the reactions that are registered or due. *)
Definition targets (r : Runtime) : list PromiseId :=
  map snd (reactions r) ++ microtasks r.

Record Inv (s : State) : Prop := mkInv {
  inv_next : forall p, waitNext (self s) = Some p ->
    buf (self s) = [] /\ done (self s) = false /\ closing (self s) = false /\
    canceling (self s) = false /\ settlement s p = Some Pending;
  inv_canceling : canceling (self s) = true ->
    done (self s) = true \/ closing (self s) = true;
  inv_closing : closing (self s) = true ->
    canceling (self s) = true /\ done (self s) = false /\
    waitClose (self s) <> None;
  inv_close : forall p, waitClose (self s) = Some p ->
    closing (self s) = true /\ settlement s p = Some Pending;
  inv_closed : closed (self s) = true -> done (self s) = true;
  inv_err : err (self s) <> None -> canceling (self s) = true;
  inv_ready : forall p, waitReady (self s) = Some p ->
    (p < length (promises (env s)))%nat /\
    waitNext (self s) <> Some p /\ waitClose (self s) <> Some p;
  inv_targets : forall t, t ∈ targets (env s) ->
    (t < length (promises (env s)))%nat /\
    waitNext (self s) <> Some t /\ waitClose (self s) <> Some t
}.

(** ** Vocabulary of the properties *)

(** [new RowStream(options)] or [new RowStream(clr, options)] *)
Definition construct (withCanceler : bool) (o : RowStreamOptions.t)
  : Completion State :=
  if withCanceler then new_RowStream (Some ArgCanceler) (Some o)
  else new_RowStream (Some (ArgOptions o)) None.

Definition is_push (c : Call) : bool :=
  match c with
  | CtlPushRow _ | CtlPushArray _ | CtlPushObject _ => true
  | _ => false
  end.

(** The row a push call hands to [#pushRow]. *)
Definition pushed_row (fn : option (list string)) (c : Call) : list Row :=
  match c with
  | CtlPushRow r => [r]
  | CtlPushArray a => [Row_fromArray a fn]
  | CtlPushObject o => [Row_fromObject o fn]
  | _ => []
  end.

Definition pushRows (rows : list Row) (s : State) : State :=
  fold_left (fun s' r => exec (_pushRow r) s') rows s.

(** The producer calls that run [#end]. *)
Definition ends_stream (c : Call) : bool :=
  match c with
  | CtlEnd | CtlError _ => true
  | _ => false
  end.

Definition is_next (c : Call) : bool :=
  match c with RowsNext => true | _ => false end.

(** Whether the call fulfils a pull with [true]: a [next()] whose promise
    is fulfilled with [true] at once, or a call that fulfils the promise
    of the pending pull with [true]. *)
Definition fulfils_pull (c : Call) (s : State) : bool :=
  match c with
  | RowsNext =>
      match result next s with
      | Normal (Returned true) => true
      | _ => false
      end
  | _ =>
      match waitNext (self s) with
      | Some p =>
          match settlement s p, settlement (perform c s) p with
          | Some Pending, Some (Fulfilled (VBool true)) => true
          | _, _ => false
          end
      | None => false
      end
  end.

(** What the consumer then reads through the [row] accessor. *)
Definition delivers (c : Call) (s : State) : list Row :=
  if fulfils_pull c s then
    match result get_row (perform c s) with
    | Normal r => [r]
    | Throw _ => []
    end
  else [].

Fixpoint delivered (s : State) (cs : list Call) : list Row :=
  match cs with
  | [] => []
  | c :: cs' => delivers c s ++ delivered (perform c s) cs'
  end.


(** ** Vocabulary of the further properties *)

(** A stream that is not ready has not begun to end, cancel or close. A
    [ready()] promise is held only while the stream is not ready, and is
    pending as long as it is held. *)
Definition ReadyInv (s : State) : Prop :=
  (ready (self s) = false ->
   done (self s) = false /\ canceling (self s) = false /\
   closing (self s) = false /\ closed (self s) = false /\
   fieldNames (self s) = None /\ columns (self s) = None) /\
  forall p, waitReady (self s) = Some p ->
    ready (self s) = false /\ settlement s p = Some Pending /\
    p ∉ targets (env s).

(** The canceler holds the callback exactly while [#onCancel] is set, and
    only on a stream that is not canceling. *)
Definition SubInv (s : State) : Prop :=
  subscribed (env s) = onCancel (self s) /\
  (onCancel (self s) = true ->
   canceling (self s) = false /\ closed (self s) = false).

(** Replaying the 'pause' and 'resume' events of a log from a paused flag:
    a 'pause' is only legal when not paused, a 'resume' only when paused.
    The result is the flag the log leaves, if every event was legal. *)
Fixpoint replay_backpressure (flag : bool) (log : list Event) : option bool :=
  match log with
  | [] => Some flag
  | EvPause :: l => if flag then None else replay_backpressure true l
  | EvResume :: l => if flag then replay_backpressure false l else None
  | _ :: l => replay_backpressure flag l
  end.

(** The paused flag against the watermarks. *)
Definition Watermarks (s : State) : Prop :=
  canPause (self s) = true ->
  exists pc rc,
    pauseCount (self s) = Some pc /\ resumeCount (self s) = Some rc /\
    0 <= rc < pc /\
    (paused (self s) = false -> Z.of_nat (length (buf (self s))) < pc) /\
    (paused (self s) = true -> rc < Z.of_nat (length (buf (self s)))).

(** [RowStream.stats] *)
Record Stats := mkStats {
  stats_ready : bool;
  stats_size : nat;
  stats_paused : bool;
  stats_canPause : bool;
  stats_pauseCount : option Z;
  stats_resumeCount : option Z
}.

Definition stats (s : State) : Stats :=
  mkStats (ready (self s)) (length (buf (self s))) (paused (self s))
    (canPause (self s)) (pauseCount (self s)) (resumeCount (self s)).

(** *** The iteration adapter

    One step of the async generator
    [try { while (await this.next()) yield this.row } finally { await this.close() }].
    A step that has to wait for a pending promise is [IterSuspended]; how
    it resumes is left to the runtime. *)
Inductive IterStep :=
| IterYield (r : Row)
| IterDone
| IterThrows (e : Error)
| IterSuspended (p : PromiseId).

(** The [finally] block, followed by the completion [k] of the [try]. *)
Definition finally_close (k : IterStep) : M IterStep :=
  c <- close ;;
  ret (match c with
       | Returned _ => k
       | Thrown e => IterThrows e
       | Settles p => IterSuspended p
       | AwaitThen p _ => IterSuspended p
       end).

(** [it.next()] on the generator. *)
Definition iterator_next : M IterStep :=
  a <- next ;;
  match a with
  | Returned true =>
      fun s =>
        match get_row s with
        | (Normal r, s') => (Normal (IterYield r), s')
        | (Throw e, s') => finally_close (IterThrows e) s'
        end
  | Returned false => finally_close IterDone
  | Thrown e => finally_close (IterThrows e)
  | Settles p => ret (IterSuspended p)
  | AwaitThen p _ => ret (IterSuspended p)
  end.

(** [it.return()]: what [break] in a [for await] loop runs. *)
Definition iterator_return : M IterStep := finally_close IterDone.

(** [for await (const row of rows) collect(row)], for at most [fuel]
    steps: the rows collected, and how the loop ended ([None]: out of
    fuel). *)
Fixpoint for_await (fuel : nat) (s : State)
  : list Row * option IterStep * State :=
  match fuel with
  | O => ([], None, s)
  | S fuel' =>
      match iterator_next s with
      | (Normal (IterYield r), s') =>
          let '(rows, out, s'') := for_await fuel' s' in
          (r :: rows, out, s'')
      | (Normal k, s') => ([], Some k, s')
      | (Throw e, s') => ([], Some (IterThrows e), s')
      end
  end.

(** The backpressure events against the paused flag: the log replays to
    the flag, and a stream that cannot pause has emitted none. *)
Definition BackpressureInv (s : State) : Prop :=
  replay_backpressure false (emitted (env s)) = Some (paused (self s)) /\
  (canPause (self s) = false ->
   paused (self s) = false /\
   count_event EvPause (emitted (env s)) = 0%nat /\
   count_event EvResume (emitted (env s)) = 0%nat).

(** The event log tells whether the producer was asked to cancel, and
    whether the underlying connection was released. *)
Definition EventsInv (s : State) : Prop :=
  count_event EvCancel (emitted (env s))
    = (if canceling (self s) then 1 else 0)%nat /\
  (done (self s) = false ->
   count_event EvComplete (emitted (env s)) = 0%nat) /\
  (done (self s) = true ->
   (1 <= count_event EvComplete (emitted (env s)))%nat).
(** *** Facts about the runtime primitives *)

Lemma settle_in_length p o r :
  length (promises (settle_in p o r)) = length (promises r).
Proof.
  unfold settle_in. destruct (promises r !! p) as [[]|]; cbn; auto.
  now rewrite length_insert.
Qed.

Lemma settle_in_lookup_ne p o r q :
  q <> p -> promises (settle_in p o r) !! q = promises r !! q.
Proof.
  intros Hne. unfold settle_in. destruct (promises r !! p) as [[]|]; cbn; auto.
  now rewrite list_lookup_insert_ne by congruence.
Qed.

Lemma settle_in_lookup_pending p o r :
  promises r !! p = Some Pending -> promises (settle_in p o r) !! p = Some o.
Proof.
  intros Hp. unfold settle_in. rewrite Hp. cbn.
  apply list_lookup_insert_eq. now apply lookup_lt_Some in Hp.
Qed.

Lemma settle_in_emitted p o r : emitted (settle_in p o r) = emitted r.
Proof. unfold settle_in. now destruct (promises r !! p) as [[]|]. Qed.

Lemma settle_in_reactions p o r t :
  t ∈ map snd (reactions (settle_in p o r)) -> t ∈ map snd (reactions r).
Proof.
  unfold settle_in. destruct (promises r !! p) as [[]|]; cbn; auto.
  rewrite !list_elem_of_In, !in_map_iff.
  intros [x [<- Hx]]. apply filter_In in Hx. exists x; tauto.
Qed.

Lemma settle_in_microtasks p o r t :
  t ∈ microtasks (settle_in p o r) ->
  t ∈ microtasks r \/ t ∈ map snd (reactions r).
Proof.
  unfold settle_in. destruct (promises r !! p) as [[]|]; cbn; auto.
  destruct o; auto. rewrite elem_of_app. intros [H|H]; auto. right.
  revert H. rewrite !list_elem_of_In, !in_map_iff.
  intros [x [<- Hx]]. apply filter_In in Hx. exists x; tauto.
Qed.

Lemma settle_in_targets p o r t :
  t ∈ targets (settle_in p o r) -> t ∈ targets r.
Proof.
  unfold targets. rewrite !elem_of_app. intros [H|H].
  - left. eapply settle_in_reactions, H.
  - apply settle_in_microtasks in H. tauto.
Qed.

(** *** Every call preserves the invariant *)

Ltac unfold_methods :=
  cbv beta iota zeta delta
    [perform exec result Controller_ready Controller_setColumns
     Controller_pushRow Controller_pushArray Controller_pushObject
     Controller_end Controller_error canceler_fire next close
     _error _cancel _end _pushObject _pushArray _pushRow
     _resume _pause _ensureFields _setColumns _resolveReady
     resolve reject then_resolve_false clr_off promise emit
     async this update update_env bind ret throw await_then
     with_buf with_row with_columns with_fieldNames with_err with_ready
     with_done with_closing with_closed with_canceling with_paused
     with_waitReady with_waitNext with_waitClose with_onCancel
     buf pauseCount resumeCount canPause row columns fieldNames err ready
     done closing closed canceling paused waitReady waitNext waitClose
     onCancel clr self env fst snd negb andb];
  cbn [promises reactions microtasks emitted subscribed].

Lemma lookup_alloc_old (l : list Settlement) p x :
  l !! p = Some x -> (l ++ [Pending]) !! p = Some x.
Proof. apply lookup_app_l_Some. Qed.

Lemma lookup_alloc_new (l : list Settlement) :
  (l ++ [Pending]) !! length l = Some Pending.
Proof. rewrite lookup_app_r by lia. now rewrite Nat.sub_diag. Qed.

Lemma lookup_alloc_at (l : list Settlement) n :
  length l = n -> (l ++ [Pending]) !! n = Some Pending.
Proof. intros <-. apply lookup_alloc_new. Qed.

Lemma lookup_bound (l : list Settlement) p x :
  l !! p = Some x -> (p < length l)%nat.
Proof. apply lookup_lt_Some. Qed.

(** Case analysis on whatever the method branches on. *)
Ltac split_cases :=
  repeat match goal with
  | |- context [match ?x with _ => _ end] => is_var x; destruct x; unfold_methods
  | |- context [if ?x then _ else _] => is_var x; destruct x; unfold_methods
  | |- context [(?l ++ [Pending]) !! length ?l] =>
      rewrite (lookup_alloc_new l); unfold_methods
  | |- context [if ?x then _ else _] =>
      lazymatch x with
      | match _ with _ => _ end => fail
      | _ => destruct x eqn:?; unfold_methods
      end
  end.

(** Using the invariant of the state before the call: every clause whose
    premise is decided by the known flags is either discharged or dropped. *)
Ltac use_clauses :=
  repeat match goal with
  | H : forall p, Some ?q = Some p -> @?P p |- _ => specialize (H q eq_refl)
  | H : forall p, None = Some p -> @?P p |- _ => clear H
  | H : true = true -> _ |- _ => specialize (H eq_refl)
  | H : false = true -> _ |- _ => clear H
  | H : None <> None -> _ |- _ => clear H
  | H : Some ?x <> None -> _ |- _ =>
      let H' := fresh in
      assert (H' : Some x <> None) by discriminate; specialize (H H'); clear H'
  | H : ?x = true -> _ |- _ => is_var x; destruct x
  | H : ?x <> None -> _ |- _ => is_var x; destruct x
  | H : forall p, ?x = Some p -> @?P p |- _ => is_var x; destruct x
  | H : _ /\ _ |- _ => destruct H
  | H : _ \/ _ |- _ => destruct H
  | H : true = false |- _ => discriminate H
  | H : false = true |- _ => discriminate H
  | H : None <> None |- _ => now contradiction H
  | H : Some ?a <> Some ?a |- _ => now contradiction H
  | H : _ :: _ = [] |- _ => discriminate H
  | H : context [targets _] |- _ =>
      unfold targets in H; cbn [reactions microtasks] in H
  | H : _ ∈ map snd (reactions (settle_in _ _ _)) |- _ =>
      apply settle_in_reactions in H; cbn [reactions] in H
  | H : _ ∈ microtasks (settle_in _ _ _) |- _ =>
      apply settle_in_microtasks in H; cbn [reactions microtasks] in H
  | H : _ ∈ _ ++ _ |- _ => rewrite elem_of_app in H
  | H : _ ∈ map snd (_ ++ _) |- _ => rewrite map_app in H
  | H : _ ∈ map snd [_] |- _ => cbn [map snd] in H
  | H : _ ∈ [_] |- _ => apply list_elem_of_singleton in H; subst
  | H : ?t ∈ map snd ?rs, Ht : forall t, t ∈ map snd ?rs ++ ?ms -> _ |- _ =>
      assert (Ht' := Ht t (proj2 (elem_of_app _ _ _) (or_introl H))); clear H
  | H : ?t ∈ ?ms, Ht : forall t, t ∈ map snd ?rs ++ ?ms -> _ |- _ =>
      assert (Ht' := Ht t (proj2 (elem_of_app _ _ _) (or_intror H))); clear H
  end.

Ltac close_clause :=
  intros; simplify_eq; use_clauses; repeat split;
  repeat (progress (cbn [promises]; rewrite ?settle_in_length, ?length_app));
  cbn [length promises];
  try first
    [ assumption
    | discriminate
    | congruence
    | lia
    | now left
    | now right
    | apply lookup_alloc_new
    | apply lookup_alloc_old; assumption
    | match goal with
      | H : ?l !! ?p = Some _ |- _ <> _ =>
          apply lookup_bound in H; intros [=]; lia
      end
    | match goal with
      | H : ?l !! ?p = Some _ |- _ => apply lookup_bound in H; lia
      end
    | intros [=]; lia
    | apply lookup_alloc_at;
      repeat (progress (cbn [promises]; rewrite ?settle_in_length));
      reflexivity
    | repeat (rewrite settle_in_lookup_ne by congruence; cbn [promises]);
      first [ assumption | apply lookup_alloc_old; assumption
            | apply lookup_alloc_new ] ].

Ltac inv_leaf :=
  match goal with H : Inv _ |- _ => destruct H as [Hn Hcn Hcg Hcl Hcd He Hr Ht] end;
  unfold settlement in *;
  cbn [self env buf done closing closed canceling err waitReady waitNext
       waitClose promises reactions microtasks] in *;
  use_clauses;
  constructor;
  unfold settlement;
  cbn [self env buf done closing closed canceling err waitReady waitNext
       waitClose promises reactions microtasks];
  close_clause.

(** Draining the microtask queue touches only the promises that were
    queued, and leaves no new target behind. *)
Lemma drain_spec (ms : list PromiseId) (r : Runtime) :
  let r' := fold_left
              (fun r' tgt => settle_in tgt (Fulfilled (VBool false)) r') ms r in
  length (promises r') = length (promises r) /\
  (forall q, q ∉ ms -> promises r' !! q = promises r !! q) /\
  (forall t, t ∈ targets r' -> t ∈ targets r) /\
  emitted r' = emitted r.
Proof.
  revert r. induction ms as [|m ms IH]; intros r; cbn.
  - repeat split; auto.
  - destruct (IH (settle_in m (Fulfilled (VBool false)) r)) as (Hl & Hq & Ht & He).
    repeat split.
    + now rewrite Hl, settle_in_length.
    + intros q Hq'. rewrite not_elem_of_cons in Hq'. destruct Hq' as [Hne Hnin].
      rewrite Hq by assumption. now apply settle_in_lookup_ne.
    + intros t Hin. now apply settle_in_targets with m (Fulfilled (VBool false)), Ht.
    + now rewrite He, settle_in_emitted.
Qed.

Lemma microtasks_preserve_Inv s : Inv s -> Inv (perform Microtasks s).
Proof.
  destruct s as [o [ps rs ms em sb]].
  intros [Hn Hcn Hcg Hcl Hcd He Hr Ht].
  unfold perform, exec, run_microtasks, update_env, settlement in *.
  cbn [snd self env promises reactions microtasks emitted subscribed] in *.
  destruct (drain_spec ms (mkRuntime ps rs [] em sb)) as (Hl & Hq & Hts & _).
  cbn [promises] in Hl, Hq.
  assert (Hsub : forall t,
    t ∈ targets (mkRuntime ps rs [] em sb) -> t ∈ targets (mkRuntime ps rs ms em sb)).
  { unfold targets; cbn. intros t. rewrite !elem_of_app.
    intros [H|H]; [now left | inversion H]. }
  assert (Hms : forall t, t ∈ ms -> t ∈ targets (mkRuntime ps rs ms em sb)).
  { unfold targets; cbn. intros t. rewrite elem_of_app. tauto. }
  constructor; unfold settlement; cbn [self env]; auto.
  - intros p Hp. destruct (Hn p Hp) as (? & ? & ? & ? & Hpend).
    repeat split; auto. rewrite Hq; auto.
    intros Hin. apply Hms, Ht in Hin. tauto.
  - intros p Hp. destruct (Hcl p Hp) as (? & Hpend).
    split; auto. rewrite Hq; auto.
    intros Hin. apply Hms, Ht in Hin. tauto.
  - intros p Hp. rewrite Hl. auto.
  - intros t Hin. rewrite Hl. apply Ht, Hsub, Hts, Hin.
Qed.

Lemma perform_preserves_Inv c s : Inv s -> Inv (perform c s).
Proof.
  destruct c as [|cs|x|x|x| |v|e| | |]; [..|apply microtasks_preserve_Inv].
  all: destruct s as [[b pc rc cp rw cols fn er rd dn cg cl cn pd wr wn wc oc hc]
                 [ps rs ms em sb]].
  all: intros H; unfold_methods; split_cases.
  all: try assumption; inv_leaf.
Qed.

Lemma run_preserves_Inv cs : forall s, Inv s -> Inv (run s cs).
Proof.
  induction cs as [|c cs IH]; intros s Hs; cbn; auto.
  apply IH, perform_preserves_Inv, Hs.
Qed.

Lemma new_RowStream_Inv a o s : new_RowStream a o = Normal s -> Inv s.
Proof.
  unfold new_RowStream.
  destruct (_validateOptions _) as [[[cp pc] rc]|]; [|discriminate].
  intros [= <-]. constructor; cbn; try congruence.
  intros t Ht. inversion Ht.
Qed.

Lemma reachable_Inv s : reachable s -> Inv s.
Proof.
  intros (a & o & s0 & cs & Hnew & ->).
  eapply run_preserves_Inv, new_RowStream_Inv, Hnew.
Qed.

Lemma reachable_perform c s : reachable s -> reachable (perform c s).
Proof.
  intros (a & o & s0 & cs & Hnew & ->).
  exists a, o, s0, (cs ++ [c]). split; auto.
  unfold run. now rewrite fold_left_app.
Qed.

Lemma reachable_run cs : forall s, reachable s -> reachable (run s cs).
Proof.
  induction cs as [|c cs IH]; intros s Hs; cbn; auto.
  apply IH, reachable_perform, Hs.
Qed.

Lemma reachable_new a o s : new_RowStream a o = Normal s -> reachable s.
Proof. intros H. now exists a, o, s, []. Qed.

Lemma run_app s cs1 cs2 : run s (cs1 ++ cs2) = run (run s cs1) cs2.
Proof. apply fold_left_app. Qed.

(** ** Option validation *)

(** C7. With a [pauseCount] of at least 2 and no [resumeCount],
    construction succeeds and the stream's [resumeCount] is
    [floor(pauseCount / 2)], the integer [r] with [2r <= pauseCount < 2r+2].
    Construction throws, and so yields no stream, whenever the given
    [pauseCount] is below 2, the given [resumeCount] is negative, or the
    given [resumeCount] is not below the given [pauseCount]; the error is
    the validation message for that case. *)
Theorem backpressure_options_validated (withCanceler : bool) (pc : Z) :
  (2 <= pc ->
     exists s r,
       construct withCanceler (RowStreamOptions.mk (Some pc) None) = Normal s /\
       canPause (self s) = true /\
       pauseCount (self s) = Some pc /\
       resumeCount (self s) = Some r /\
       r = pc / 2 /\ 2 * r <= pc < 2 * r + 2 /\ 0 <= r < pc) /\
  (forall rc, pc < 2 ->
     construct withCanceler (RowStreamOptions.mk (Some pc) rc)
       = Throw (mkError "pauseCount must more than 1")) /\
  (forall rc, rc < 0 ->
     exists e,
       construct withCanceler (RowStreamOptions.mk (Some pc) (Some rc)) = Throw e /\
       (2 <= pc -> e = mkError "resumeCount cannot be negative")) /\
  (forall rc, rc >= pc ->
     exists e,
       construct withCanceler (RowStreamOptions.mk (Some pc) (Some rc)) = Throw e /\
       (2 <= pc -> 0 <= rc ->
        e = mkError "resumeCount must be less than pauseCount")).
Proof.
  unfold construct, new_RowStream, _validateOptions.
  cbn [RowStreamOptions.pauseCount RowStreamOptions.resumeCount].
  repeat split.
  - intros Hpc. replace (pc <? 2) with false by (symmetry; apply Z.ltb_ge; lia).
    assert (Hdiv : 2 * (pc / 2) <= pc < 2 * (pc / 2) + 2).
    { pose proof (Z.mul_div_le pc 2). pose proof (Z.mul_succ_div_gt pc 2). lia. }
    destruct withCanceler; eexists _, (pc / 2);
      (split; [reflexivity|]); cbn [self canPause pauseCount resumeCount];
      repeat split; lia.
  - intros rc Hpc. replace (pc <? 2) with true by (symmetry; apply Z.ltb_lt; lia).
    now destruct withCanceler.
  - intros rc Hrc.
    replace (rc <? 0) with true by (symmetry; apply Z.ltb_lt; lia).
    destruct (Z.ltb_spec pc 2); destruct withCanceler;
      (eexists; split; [reflexivity|]); intros; try lia; reflexivity.
  - intros rc Hrc.
    replace (rc >=? pc) with true by (symmetry; apply Z.geb_le; lia).
    destruct (Z.ltb_spec pc 2); destruct (Z.ltb_spec rc 0);
      destruct withCanceler;
      (eexists; split; [reflexivity|]); intros; try lia; reflexivity.
Qed.

(** Every stream that was constructed with backpressure has
    [0 <= resumeCount < pauseCount] and [pauseCount >= 2]. *)
Lemma constructed_watermarks a o s :
  new_RowStream a o = Normal s -> canPause (self s) = true ->
  exists pc rc, pauseCount (self s) = Some pc /\ resumeCount (self s) = Some rc /\
                0 <= rc < pc /\ 2 <= pc.
Proof.
  unfold new_RowStream, _validateOptions.
  destruct a as [[|o']|]; [destruct o as [o|] | | destruct o as [o|]].
  all: try (intros [= <-]; discriminate).
  all: match goal with
       | |- context [RowStreamOptions.pauseCount ?x] =>
           destruct x as [[pc|] [rc|]]; cbn
       end.
  all: repeat match goal with
       | |- context [Z.ltb ?x ?y] => destruct (Z.ltb_spec x y); cbn
       | |- context [Z.geb ?x ?y] => destruct (Z.geb_spec x y); cbn
       end.
  all: intros [= <-]; cbn; try discriminate; intros _.
  all: try (exists pc, rc; repeat split; auto; lia).
  all: exists pc, (pc / 2); repeat split; auto; try lia.
  all: pose proof (Z.mul_div_le pc 2); pose proof (Z.mul_succ_div_gt pc 2); lia.
Qed.

(** C10. Options that carry a [resumeCount] but no [pauseCount] make the
    constructor throw 'pauseCount must be provided with resumeCount'. *)
Theorem resumeCount_alone_rejected (withCanceler : bool) (rc : Z) :
  construct withCanceler (RowStreamOptions.mk None (Some rc))
    = Throw (mkError "pauseCount must be provided with resumeCount").
Proof. now destruct withCanceler. Qed.

(** ** Contract violations *)


(** Columns stay unset under every call that does not run [#setColumns]:
    only [setColumns] and an [end] on a stream that is not ready set them. *)
Lemma fieldNames_unset_preserved (c : Call) (s : State) :
  fieldNames (self s) = None ->
  (forall cols, c <> CtlSetColumns cols) ->
  c <> CtlEnd \/ ready (self s) = true ->
  (forall v, c <> CtlError v) \/ ready (self s) = true ->
  (forall e, c <> CancelerFire e) \/ ready (self s) = true ->
  fieldNames (self (perform c s)) = None.
Proof.
  destruct s as [[b pc rc cp rw cols fn er rd dn cg cl cn pd wr wn wc oc hc]
                 [ps rs ms em sb]].
  cbn [self fieldNames ready]. intros -> Hsc He Her Hcf.
  destruct c as [|cs|x|x|x| |v|e| | |];
    try (now contradiction (Hsc cs)); unfold_methods; split_cases;
    try reflexivity.
  all: try (destruct He as [He|He]; [now contradiction He|discriminate He]).
  all: try (destruct Her as [Her|Her]; [now contradiction (Her v)|discriminate Her]).
  all: try (destruct Hcf as [Hcf|Hcf]; [now contradiction (Hcf e)|discriminate Hcf]).
Qed.

(** What the class does for a second [next()]: the call returns normally,
    and the promise it returns is already rejected. *)
Lemma second_next_outcome (s : State) (p : PromiseId) :
  closed (self s) = false -> closing (self s) = false ->
  waitNext (self s) = Some p ->
  result next s
    = Normal (Thrown (mkError "Existing next() call has not yet resolved")) /\
  exec next s = s.
Proof.
  destruct s as [[b pc rc cp rw cols fn er rd dn cg cl cn pd wr wn wc oc hc] r].
  cbn [self closed closing waitNext]. intros -> -> ->.
  unfold_methods. split; reflexivity.
Qed.

(** C9, as the class has it. While a [next()] is pending on a cursor that
    is neither closed nor closing, another [next()] does not throw at the
    call site: [next] is an async method, so the call returns a promise,
    and that promise is already rejected with the error 'Existing next()
    call has not yet resolved'. The state, and with it the pending pull and
    its promise, is untouched. *)
Theorem second_next_rejected (s : State) (p : PromiseId) :
  closed (self s) = false -> closing (self s) = false ->
  waitNext (self s) = Some p ->
  (forall e, result next s <> Throw e) /\
  result next s
    = Normal (Thrown (mkError "Existing next() call has not yet resolved")) /\
  exec next s = s /\
  waitNext (self (exec next s)) = Some p /\
  settlement (exec next s) p = settlement s p.
Proof.
  intros Hcl Hcg Hwn.
  destruct (second_next_outcome s p Hcl Hcg Hwn) as [Hres Hst].
  rewrite Hres, Hst. repeat split; auto; discriminate.
Qed.

(** ** Cancellation *)

(** The canceling flag is never reset. *)
Lemma canceling_monotone (c : Call) (s : State) :
  canceling (self s) = true -> canceling (self (perform c s)) = true.
Proof.
  destruct s as [[b pc rc cp rw cols fn er rd dn cg cl cn pd wr wn wc oc hc]
                 [ps rs ms em sb]].
  cbn [self canceling]. intros ->.
  destruct c as [|cs|x|x|x| |v|e| | |]; unfold_methods; split_cases;
    reflexivity.
Qed.

Lemma canceling_run (cs : list Call) : forall s,
  canceling (self s) = true -> canceling (self (run s cs)) = true.
Proof.
  induction cs as [|c cs IH]; intros s Hs; cbn; auto.
  apply IH, canceling_monotone, Hs.
Qed.

Lemma push_while_canceling (c : Call) (s : State) :
  canceling (self s) = true -> is_push c = true -> perform c s = s.
Proof.
  destruct s as [[b pc rc cp rw cols fn er rd dn cg cl cn pd wr wn wc oc hc]
                 [ps rs ms em sb]].
  cbn [self canceling]. intros -> Hc.
  destruct c; try discriminate Hc; unfold_methods; split_cases; reflexivity.
Qed.

(** C6. Once [canceling] is set, a push at any later point, through any
    of the three variants, changes nothing: the state after it is the
    state before it, so the buffer does not grow, and every history runs
    on as if the push had never been made, so no pull can observe the
    row. When columns are set the push returns normally. *)
Theorem push_after_cancel_discarded (s : State) (before after : list Call)
    (c : Call) :
  canceling (self s) = true -> is_push c = true ->
  perform c (run s before) = run s before /\
  size (perform c (run s before)) = size (run s before) /\
  run s (before ++ c :: after) = run s (before ++ after) /\
  (fieldNames (self (run s before)) <> None ->
   forall r a o,
     result (Controller_pushRow r) (run s before) = Normal tt /\
     result (Controller_pushArray a) (run s before) = Normal tt /\
     result (Controller_pushObject o) (run s before) = Normal tt).
Proof.
  intros Hcn Hc.
  assert (Hstep : perform c (run s before) = run s before).
  { apply push_while_canceling; auto. now apply canceling_run. }
  repeat split.
  - exact Hstep.
  - now rewrite Hstep.
  - rewrite !run_app. cbn. now rewrite Hstep.
  - pose proof (canceling_run before s Hcn) as Hcn'.
    destruct (run s before) as [[] ?]. cbn in *. subst.
    destruct fieldNames0; [|contradiction]. reflexivity.
  - pose proof (canceling_run before s Hcn) as Hcn'.
    destruct (run s before) as [[] ?]. cbn in *. subst.
    destruct fieldNames0; [|contradiction]. reflexivity.
  - pose proof (canceling_run before s Hcn) as Hcn'.
    destruct (run s before) as [[] ?]. cbn in *. subst.
    destruct fieldNames0; [|contradiction]. reflexivity.
Qed.

(** ** Events *)

Ltac norm_emitted :=
  unfold emitted_by; unfold_methods; split_cases;
  repeat (cbn [emitted env] || rewrite settle_in_emitted);
  rewrite <- ?app_assoc; rewrite ?drop_app_length; cbn [app].

(** Every run of [#end] emits 'complete', once, and nothing else. *)
Lemma end_emits_complete (s : State) :
  emitted_by Controller_end s = [EvComplete].
Proof.
  destruct s as [[b pc rc cp rw cols fn er rd dn cg cl cn pd wr wn wc oc hc]
                 [ps rs ms em sb]].
  norm_emitted; reflexivity.
Qed.

(** An external cancellation that starts the cancellation emits 'cancel'
    and then 'complete', once each. *)
Lemma cancel_emits_complete_once (s : State) (e : Error) :
  subscribed (env s) = true -> canceling (self s) = false ->
  emitted_by (canceler_fire e) s = [EvCancel; EvComplete].
Proof.
  destruct s as [[b pc rc cp rw cols fn er rd dn cg cl cn pd wr wn wc oc hc]
                 [ps rs ms em sb]].
  cbn [self env subscribed canceling]. intros -> ->.
  norm_emitted; reflexivity.
Qed.

(** [error(err)] on a stream that is already canceling (the consumer
    closed it first) emits 'complete' once. *)
Lemma error_while_canceling_emits (s : State) (v : JsValue) :
  canceling (self s) = true ->
  emitted_by (Controller_error v) s = [EvComplete].
Proof.
  destruct s as [[b pc rc cp rw cols fn er rd dn cg cl cn pd wr wn wc oc hc]
                 [ps rs ms em sb]].
  cbn [self canceling]. intros ->.
  norm_emitted; reflexivity.
Qed.

(** C2, where the class departs from it. [error(err)] on a stream that is
    not yet canceling runs [#end] twice, once at the end of [#cancel] and
    once more in [#error] itself, and each run emits 'complete': the event
    is emitted twice, not once. *)
Theorem error_emits_complete_twice (s : State) (v : JsValue) :
  canceling (self s) = false ->
  emitted_by (Controller_error v) s = [EvCancel; EvComplete; EvComplete] /\
  count_event EvComplete (emitted_by (Controller_error v) s) = 2%nat.
Proof.
  destruct s as [[b pc rc cp rw cols fn er rd dn cg cl cn pd wr wn wc oc hc]
                 [ps rs ms em sb]].
  cbn [self canceling]. intros ->.
  assert (H : emitted_by (Controller_error v)
            (mkState
               (mkRowStream b pc rc cp rw cols fn er rd dn cg cl false pd wr wn
                  wc oc hc) (mkRuntime ps rs ms em sb))
          = [EvCancel; EvComplete; EvComplete]).
  { norm_emitted; reflexivity. }
  rewrite H. split; reflexivity.
Qed.

(** ** Backpressure *)

Lemma pushRow_keeps_fieldNames (r : Row) (s : State) :
  fieldNames (self (exec (_pushRow r) s)) = fieldNames (self s).
Proof.
  destruct s as [[b pc rc cp rw cols fn er rd dn cg cl cn pd wr wn wc oc hc]
                 [ps rs ms em sb]].
  unfold_methods; split_cases; reflexivity.
Qed.

Lemma push_as_pushRow (c : Call) (s : State) (names : list string) :
  fieldNames (self s) = Some names -> is_push c = true ->
  exists r, pushed_row (Some names) c = [r] /\
            perform c s = exec (_pushRow r) s.
Proof.
  destruct s as [[b pc rc cp rw cols fn er rd dn cg cl cn pd wr wn wc oc hc] r].
  cbn [self fieldNames]. intros -> Hc.
  destruct c; try discriminate Hc; eexists; (split; [reflexivity|]);
    reflexivity.
Qed.

Lemma run_pushes (cs : list Call) : forall (s : State) (names : list string),
  fieldNames (self s) = Some names -> forallb is_push cs = true ->
  exists rows, rows = flat_map (pushed_row (Some names)) cs /\
               length rows = length cs /\
               run s cs = pushRows rows s.
Proof.
  induction cs as [|c cs IH]; intros s names Hfn Hcs.
  - exists []. repeat split.
  - cbn in Hcs. apply andb_prop in Hcs as [Hc Hcs].
    destruct (push_as_pushRow c s names Hfn Hc) as (r & Hr & Hstep).
    destruct (IH (perform c s) names) as (rows & Hrows & Hlen & Hrun); auto.
    { rewrite Hstep, pushRow_keeps_fieldNames. exact Hfn. }
    exists (r :: rows).
    split; [cbn [flat_map]; rewrite Hr; cbn; congruence|].
    split; [cbn; congruence|].
    change (run s (c :: cs)) with (run (perform c s) cs).
    rewrite Hrun, Hstep. reflexivity.
Qed.

(** C1, as the class has it. On a stream built with
    [{pauseCount: 5, resumeCount: 3}], after columns are set, six pushes
    (of any variant, with no pull pending) emit 'pause' exactly once, on
    the fifth push, and leave six rows buffered. Four pulls then leave two
    rows buffered and emit 'resume' exactly once; it is the third pull
    that emits it, when the buffer has fallen to 3 = [resumeCount]; the
    fourth pull emits nothing. *)
Theorem scenario_A_watermarks (s0 : State) (cols : list ColumnInfo)
    (pushes : list Call) :
  new_RowStream (Some (ArgOptions (RowStreamOptions.mk (Some 5) (Some 3)))) None
    = Normal s0 ->
  length pushes = 6%nat -> forallb is_push pushes = true ->
  let s1 := run s0 (CtlSetColumns cols :: pushes) in
  let p1 := perform RowsNext s1 in
  let p2 := perform RowsNext p1 in
  let p3 := perform RowsNext p2 in
  let p4 := perform RowsNext p3 in
  count_event EvPause (emitted (env s1)) = 1%nat /\
  emitted (env (run s0 (CtlSetColumns cols :: take 4 pushes))) = [] /\
  emitted (env (run s0 (CtlSetColumns cols :: take 5 pushes))) = [EvPause] /\
  size s1 = 6%nat /\
  emitted_by next s1 = [] /\ emitted_by next p1 = [] /\
  size p2 = 4%nat /\
  emitted_by next p2 = [EvResume] /\ size p3 = 3%nat /\
  emitted_by next p3 = [] /\
  size p4 = 2%nat /\
  count_event EvResume (emitted (env p4)) = 1%nat.
Proof.
  intros Hnew Hlen Hpush. injection Hnew as <-.
  destruct pushes as [|c1 [|c2 [|c3 [|c4 [|c5 [|c6 [|]]]]]]]; try discriminate Hlen.
  cbn [run fold_left take].
  set (sc := perform (CtlSetColumns cols) _).
  assert (Hfn : fieldNames (self sc) = Some (map name cols)) by reflexivity.
  assert (H4 : forallb is_push [c1; c2; c3; c4] = true).
  { cbn in *. repeat (apply andb_prop in Hpush as [? Hpush]).
    repeat (apply andb_true_intro; split); auto. }
  assert (H5 : forallb is_push [c1; c2; c3; c4; c5] = true).
  { cbn in *. repeat (apply andb_prop in Hpush as [? Hpush]).
    repeat (apply andb_true_intro; split); auto. }
  destruct (run_pushes _ sc _ Hfn Hpush) as (rows6 & _ & Hl6 & Hr6).
  destruct (run_pushes _ sc _ Hfn H5) as (rows5 & _ & Hl5 & Hr5).
  destruct (run_pushes _ sc _ Hfn H4) as (rows4 & _ & Hl4 & Hr4).
  cbn [run fold_left] in Hr6, Hr5, Hr4. rewrite Hr6, Hr5, Hr4.
  destruct rows6 as [|r1 [|r2 [|r3 [|r4 [|r5 [|r6 [|]]]]]]]; try discriminate Hl6.
  destruct rows5 as [|q1 [|q2 [|q3 [|q4 [|q5 [|]]]]]]; try discriminate Hl5.
  destruct rows4 as [|t1 [|t2 [|t3 [|t4 [|]]]]]; try discriminate Hl4.
  subst sc. vm_compute. repeat split.
Qed.

(** ** Producer errors *)

Ltac solve_lookup :=
  cbn [promises];
  first
    [ assumption
    | apply lookup_alloc_new
    | apply lookup_alloc_old; solve_lookup
    | rewrite settle_in_lookup_ne by congruence; solve_lookup
    | apply settle_in_lookup_pending; solve_lookup ].

(** Opening up the invariant of a state whose fields are named. *)
Ltac open_Inv H :=
  destruct H as [Hn Hcn Hcg Hcl Hcd He Hr Ht];
  unfold settlement in *;
  cbn [self env buf done closing closed canceling err waitReady waitNext
       waitClose promises reactions microtasks] in *.


(** The error stays on the [err] accessor: once an error is stored, no
    call replaces it unless the producer reports another one. *)
Lemma err_kept (c : Call) (s : State) (e : Error) :
  Inv s -> err (self s) = Some e -> (forall v, c <> CtlError v) ->
  err (self (perform c s)) = Some e.
Proof.
  destruct s as [[b pc rc cp rw cols fn er rd dn cg cl cn pd wr wn wc oc hc]
                 [ps rs ms em sb]].
  intros Hs Herr Hc. cbn [self err] in Herr. subst er.
  open_Inv Hs; use_clauses; subst.
  all: destruct c as [|cs|x|x|x| |v|e'| | |]; try (now contradiction (Hc v));
    unfold_methods; split_cases; reflexivity.
Qed.

(** ** Closing before the producer is done *)

(** While a close is waiting, no call other than [end] and [error]
    touches the close promise or the closing flag. *)
Lemma close_wait_kept (c : Call) (s : State) (p : PromiseId) :
  Inv s -> closing (self s) = true -> waitClose (self s) = Some p ->
  ends_stream c = false ->
  closing (self (perform c s)) = true /\
  waitClose (self (perform c s)) = Some p.
Proof.
  destruct s as [[b pc rc cp rw cols fn er rd dn cg cl cn pd wr wn wc oc hc]
                 [ps rs ms em sb]].
  intros Hs Hcg Hwc Hc. cbn [self closing waitClose] in Hcg, Hwc. subst cg wc.
  destruct c as [|cs|x|x|x| |v|e'| | |]; try discriminate Hc;
    [..|split; reflexivity].
  all: open_Inv Hs; use_clauses; subst.
  all: unfold_methods; split_cases; split; reflexivity.
Qed.

Lemma close_wait_run (cs : list Call) : forall (s : State) (p : PromiseId),
  Inv s -> closing (self s) = true -> waitClose (self s) = Some p ->
  forallb (fun c => negb (ends_stream c)) cs = true ->
  Inv (run s cs) /\ closing (self (run s cs)) = true /\
  waitClose (self (run s cs)) = Some p.
Proof.
  induction cs as [|c cs IH]; intros s p Hs Hcg Hwc Hcs; [auto|].
  cbn in Hcs. apply andb_prop in Hcs as [Hc Hcs].
  apply negb_true_iff in Hc.
  destruct (close_wait_kept c s p Hs Hcg Hwc Hc) as [Hcg' Hwc'].
  change (run s (c :: cs)) with (run (perform c s) cs).
  apply IH; auto using perform_preserves_Inv.
Qed.

(** [close()] on a stream whose producer is not done hands back a promise
    that follows the close promise, and leaves the stream closing. *)
Lemma close_before_done (s : State) :
  Inv s -> done (self s) = false ->
  exists p,
    result close s = Normal (Settles p) /\
    closing (self (exec close s)) = true /\
    waitClose (self (exec close s)) = Some p /\
    (canceling (self s) = false -> emitted_by close s = [EvCancel]) /\
    (canceling (self s) = true -> emitted_by close s = []).
Proof.
  destruct s as [[b pc rc cp rw cols fn er rd dn cg cl cn pd wr wn wc oc hc]
                 [ps rs ms em sb]].
  intros Hs Hdn. cbn [self done] in Hdn. subst dn.
  open_Inv Hs; use_clauses; subst.
  all: unfold emitted_by; unfold_methods; split_cases.
  all: eexists; repeat split; try reflexivity; try discriminate.
  all: intros _; repeat (cbn [emitted env] || rewrite settle_in_emitted).
  all: first [rewrite drop_app_length; reflexivity | apply drop_all].
Qed.

(** [end()] and [error(err)] fulfil the close promise a close waits on. *)
Lemma end_fulfils_close (c : Call) (s : State) (p : PromiseId) :
  Inv s -> closing (self s) = true -> waitClose (self s) = Some p ->
  ends_stream c = true ->
  settlement (perform c s) p = Some (Fulfilled VUnit) /\
  isClosed (perform c s) = true.
Proof.
  destruct s as [[b pc rc cp rw cols fn er rd dn cg cl cn pd wr wn wc oc hc]
                 [ps rs ms em sb]].
  intros Hs Hcg Hwc Hc. cbn [self closing waitClose] in Hcg, Hwc. subst cg wc.
  destruct c as [|cs|x|x|x| |v|e'| | |]; try discriminate Hc.
  all: open_Inv Hs; use_clauses; subst.
  all: unfold isClosed, settlement; unfold_methods; split_cases.
  all: cbn [self env closed]; split; [solve_lookup | reflexivity].
Qed.

(** C4. When the consumer calls [close()] before the producer has
    signalled the end, the promise [close()] returns follows a close
    promise that stays pending through every history of calls in which the
    producer calls neither [end()] nor [error(err)] (which runs [end]
    itself), and is fulfilled by the producer's next [end()] (or
    [error(err)]), which also closes the cursor. If cancellation had not
    begun, the [close()] call itself emits 'cancel', and only that; if it
    had, the call emits nothing. *)
Theorem close_waits_for_end (s : State) :
  reachable s -> done (self s) = false ->
  exists p,
    result close s = Normal (Settles p) /\
    (canceling (self s) = false -> emitted_by close s = [EvCancel]) /\
    (canceling (self s) = true -> emitted_by close s = []) /\
    forall cs, forallb (fun c => negb (ends_stream c)) cs = true ->
      let waiting := run (exec close s) cs in
      settlement waiting p = Some Pending /\
      isClosed waiting = false /\
      settlement (perform CtlEnd waiting) p = Some (Fulfilled VUnit) /\
      isClosed (perform CtlEnd waiting) = true /\
      forall v, settlement (perform (CtlError v) waiting) p
                = Some (Fulfilled VUnit).
Proof.
  intros Hs Hdn. apply reachable_Inv in Hs.
  destruct (close_before_done s Hs Hdn) as (p & Hres & Hcg & Hwc & Hev1 & Hev2).
  exists p. repeat split; auto.
  all: assert (Hs1 : Inv (exec close s))
    by apply (perform_preserves_Inv RowsClose s Hs).
  all: destruct (close_wait_run cs _ p Hs1 Hcg Hwc H) as (Hi & Hcg' & Hwc').
  - now apply (inv_close _ Hi).
  - unfold isClosed.
    destruct (closed (self (run (exec close s) cs))) eqn:Hcl; auto.
    apply (inv_closed _ Hi) in Hcl.
    apply (inv_closing _ Hi) in Hcg'. destruct Hcg' as (_ & Hd & _). congruence.
  - now apply end_fulfils_close.
  - now apply (end_fulfils_close CtlEnd _ p).
  - intros v. now apply end_fulfils_close.
Qed.

(** ** FIFO delivery *)

Lemma fifo_step (c : Call) (s : State) (names : list string) :
  Inv s -> canceling (self s) = false -> fieldNames (self s) = Some names ->
  is_push c || is_next c = true ->
  canceling (self (perform c s)) = false /\
  fieldNames (self (perform c s)) = Some names /\
  delivers c s ++ buf (self (perform c s))
    = buf (self s) ++ pushed_row (Some names) c.
Proof.
  destruct s as [[b pc rc cp rw cols fn er rd dn cg cl cn pd wr wn wc oc hc]
                 [ps rs ms em sb]].
  intros Hs Hcn Hfn Hc. cbn [self canceling fieldNames] in Hcn, Hfn. subst cn fn.
  destruct c as [|cs|x|x|x| |v|e'| | |]; try discriminate Hc.
  all: open_Inv Hs; use_clauses; subst.
  all: unfold delivers, fulfils_pull, get_row, settlement, pushed_row;
    unfold_methods; split_cases.
  all: cbn [self env buf canceling fieldNames].
  all: repeat match goal with
       | H : ?l !! ?p = Some Pending |- context [?l !! ?p] => rewrite H
       | H : ?l !! ?p = Some Pending
         |- context [promises (settle_in ?p ?o ?r) !! ?p] =>
           rewrite (settle_in_lookup_pending p o r H)
       end.
  all: unfold_methods; split_cases.
  all: repeat split; rewrite ?app_nil_r; reflexivity.
Qed.

Lemma fifo_run (cs : list Call) : forall (s : State) (names : list string),
  Inv s -> canceling (self s) = false -> fieldNames (self s) = Some names ->
  forallb (fun c => is_push c || is_next c) cs = true ->
  canceling (self (run s cs)) = false /\
  delivered s cs ++ buf (self (run s cs))
    = buf (self s) ++ flat_map (pushed_row (Some names)) cs.
Proof.
  induction cs as [|c cs IH]; intros s names Hs Hcn Hfn Hcs.
  - cbn. now rewrite app_nil_r.
  - cbn in Hcs. apply andb_prop in Hcs as [Hc Hcs].
    destruct (fifo_step c s names Hs Hcn Hfn Hc) as (Hcn' & Hfn' & Hstep).
    destruct (IH (perform c s) names) as [Hcn'' Hrest];
      auto using perform_preserves_Inv.
    change (run s (c :: cs)) with (run (perform c s) cs).
    split; [exact Hcn''|].
    cbn [delivered flat_map].
    rewrite <- app_assoc, Hrest, !app_assoc, Hstep. reflexivity.
Qed.

(** C5. On a stream with columns set that is not canceling, take any
    history of pushes (through [pushRow], [pushArray] or [pushObject]) and
    pulls, with or without backpressure. The rows the consumer reads
    through the [row] accessor, one each time a pull is fulfilled with
    true, followed by the rows still buffered at the end, are exactly the
    rows buffered at the start followed by the pushed rows, in push order:
    nothing is reordered, duplicated or dropped. For a stream that starts
    with an empty buffer the rows read are a prefix of the rows pushed. *)
Theorem rows_delivered_in_push_order (s : State) (names : list string)
    (cs : list Call) :
  reachable s -> canceling (self s) = false ->
  fieldNames (self s) = Some names ->
  forallb (fun c => is_push c || is_next c) cs = true ->
  delivered s cs ++ buf (self (run s cs))
    = buf (self s) ++ flat_map (pushed_row (Some names)) cs /\
  (buf (self s) = [] ->
   delivered s cs `prefix_of` flat_map (pushed_row (Some names)) cs).
Proof.
  intros Hs Hcn Hfn Hcs. apply reachable_Inv in Hs.
  destruct (fifo_run cs s names Hs Hcn Hfn Hcs) as [_ Heq].
  split; [exact Heq|].
  intros Hb. rewrite Hb in Heq. cbn in Heq.
  exists (buf (self (run s cs))). now rewrite Heq.
Qed.

(** * Further properties of the class *)

(** ** Error normalization *)


(** ** Terminal flags *)

Lemma ready_kept (c : Call) (s : State) :
  ready (self s) = true -> ready (self (perform c s)) = true.
Proof.
  destruct s as [[b pc rc cp rw cols fn er rd dn cg cl cn pd wr wn wc oc hc]
                 [ps rs ms em sb]].
  cbn [self ready]. intros ->.
  destruct c as [|cs|x|x|x| |v|e| | |]; [..|reflexivity].
  all: unfold_methods; split_cases; reflexivity.
Qed.

(** X2. No call ever resets [ready], [done] or [closed]: each of them,
    once true, stays true through every call. *)
Theorem terminal_flags_monotone (c : Call) (s : State) :
  (ready (self s) = true -> ready (self (perform c s)) = true) /\
  (done (self s) = true -> done (self (perform c s)) = true) /\
  (closed (self s) = true -> closed (self (perform c s)) = true).
Proof.
  destruct s as [[b pc rc cp rw cols fn er rd dn cg cl cn pd wr wn wc oc hc]
                 [ps rs ms em sb]].
  cbn [self ready done closed].
  destruct c as [|cs|x|x|x| |v|e| | |];
    [..|repeat split; intros; assumption].
  all: unfold_methods; split_cases.
  all: repeat split; intros; first [reflexivity | assumption | discriminate].
Qed.

(** ** Close *)

Lemma close_closes (s : State) :
  closed (self (exec close s)) = true \/ closing (self (exec close s)) = true.
Proof.
  destruct s as [[b pc rc cp rw cols fn er rd dn cg cl cn pd wr wn wc oc hc]
                 [ps rs ms em sb]].
  unfold_methods. split_cases.
  all: first [left; reflexivity | right; reflexivity].
Qed.

Lemma error_cancels (s : State) (v : JsValue) :
  canceling (self (exec (Controller_error v) s)) = true.
Proof.
  destruct s as [[b pc rc cp rw cols fn er rd dn cg cl cn pd wr wn wc oc hc]
                 [ps rs ms em sb]].
  unfold_methods; split_cases; reflexivity.
Qed.

(** X3. [close()] is idempotent and never fails: a second [close()] right
    after a first one changes nothing, and no [close()] throws or returns
    a rejected promise. After any [close()] the cursor is closed or
    closing. *)
Theorem close_idempotent (s : State) :
  exec close (exec close s) = exec close s /\
  (forall e, result close s <> Throw e) /\
  (forall e, result close s <> Normal (Thrown e)) /\
  (closed (self (exec close s)) = true \/
   closing (self (exec close s)) = true).
Proof.
  destruct s as [[b pc rc cp rw cols fn er rd dn cg cl cn pd wr wn wc oc hc]
                 [ps rs ms em sb]].
  unfold_methods. split_cases.
  all: repeat split; try discriminate; try reflexivity.
  all: first [left; reflexivity | right; reflexivity].
Qed.

(** ** Producer errors and ends *)

(** X4. [error(err)] always finalizes the cursor, whatever state it is in:
    afterwards the stored error is the normalized [err] (replacing any
    earlier error), and the cursor is done, canceling and closed, not
    closing. On a reachable stream no pull and no close is left waiting. *)
Theorem error_finalizes (s : State) (v : JsValue) :
  let s' := exec (Controller_error v) s in
  err (self s') = Some (normalize_error v) /\
  done (self s') = true /\ canceling (self s') = true /\
  closed (self s') = true /\ closing (self s') = false /\
  ready (self s') = true /\
  (reachable s -> waitNext (self s') = None /\ waitClose (self s') = None).
Proof.
  cbv zeta.
  assert (Hflags :
    err (self (exec (Controller_error v) s)) = Some (normalize_error v) /\
    done (self (exec (Controller_error v) s)) = true /\
    canceling (self (exec (Controller_error v) s)) = true /\
    closed (self (exec (Controller_error v) s)) = true /\
    closing (self (exec (Controller_error v) s)) = false /\
    ready (self (exec (Controller_error v) s)) = true).
  { destruct s as [[b pc rc cp rw cols fn er rd dn cg cl cn pd wr wn wc oc hc]
                   [ps rs ms em sb]].
    unfold_methods; split_cases; repeat split. }
  destruct Hflags as (H1 & H2 & H3 & H4 & H5 & H6).
  repeat (split; [assumption|]).
  intros Hs. apply reachable_Inv in Hs.
  destruct s as [[b pc rc cp rw cols fn er rd dn cg cl cn pd wr wn wc oc hc]
                 [ps rs ms em sb]].
  clear H1 H2 H3 H4 H5 H6.
  open_Inv Hs; use_clauses; subst.
  all: unfold_methods; split_cases; split; reflexivity.
Qed.

(** X5. A repeated [end()] is idempotent on everything but the event log:
    the second [end()] leaves the object and the promises exactly as the
    first one left them, and emits 'complete' once more. *)
Theorem end_twice (s : State) :
  exec Controller_end (exec Controller_end s)
    = exec (emit EvComplete) (exec Controller_end s).
Proof.
  assert (Hpost : forall s',
    done (self s') = true -> ready (self s') = true ->
    waitClose (self s') = None ->
    (err (self s') <> None ->
     closed (self s') = true /\ closing (self s') = false) ->
    (waitNext (self s') <> None -> buf (self s') = [] ->
     closed (self s') = true \/ closing (self s') = true) ->
    exec Controller_end s' = exec (emit EvComplete) s').
  { intros [[b pc rc cp rw cols fn er rd dn cg cl cn pd wr wn wc oc hc]
            [ps rs ms em sb]].
    cbn [self done ready waitClose err closed closing waitNext buf].
    intros -> -> -> Herr Hwn.
    destruct er as [e|].
    - destruct Herr as [-> ->]; [discriminate|].
      unfold_methods; split_cases; reflexivity.
    - destruct wn as [p|]; [destruct b as [|r b]|].
      + destruct Hwn as [-> | ->]; [discriminate | reflexivity | |].
        * reflexivity.
        * destruct cl; reflexivity.
      + reflexivity.
      + unfold_methods; split_cases; reflexivity. }
  apply Hpost.
  all: destruct s as [[b pc rc cp rw cols fn er rd dn cg cl cn pd wr wn wc oc hc]
                 [ps rs ms em sb]].
  all: unfold_methods; split_cases.
  all: try reflexivity; try (intros; split; reflexivity);
    try (intros H; now contradiction H); try (intros; discriminate).
  all: intros; first [left; reflexivity | right; reflexivity].
Qed.

(** X6. When the producer calls [end()] while a pull is pending, the pull
    is fulfilled with [false] and the cursor is closed at once; the call
    emits 'complete' and nothing else. *)
Theorem end_resolves_pending_pull (s : State) (p : PromiseId) :
  reachable s -> waitNext (self s) = Some p ->
  let s' := exec Controller_end s in
  settlement s' p = Some (Fulfilled (VBool false)) /\
  isClosed s' = true /\
  waitNext (self s') = None /\
  err (self s') = None /\
  emitted_by Controller_end s = [EvComplete].
Proof.
  intros Hs Hwn. apply reachable_Inv in Hs.
  split; [|split; [|split; [|split; [|apply end_emits_complete]]]].
  all: destruct s as [[b pc rc cp rw cols fn er rd dn cg cl cn pd wr wn wc oc hc]
                 [ps rs ms em sb]].
  all: cbn [self waitNext] in Hwn; subst wn.
  all: open_Inv Hs; use_clauses; subst.
  all: unfold isClosed, settlement; unfold_methods; split_cases.
  all: cbn [self env closed]; use_clauses; first [reflexivity | solve_lookup].
Qed.

(** X7. Once the producer is done, a pull on a cursor that is not closed
    never waits: with rows buffered it delivers the head row and returns
    true, leaving the rest buffered; with the buffer empty it returns
    false and closes the cursor. *)
Theorem next_after_end (s : State) :
  reachable s -> done (self s) = true -> closed (self s) = false ->
  match buf (self s) with
  | r :: rest =>
      result next s = Normal (Returned true) /\
      result get_row (exec next s) = Normal r /\
      buf (self (exec next s)) = rest /\
      closed (self (exec next s)) = false /\
      done (self (exec next s)) = true
  | [] =>
      result next s = Normal (Returned false) /\
      closed (self (exec next s)) = true /\
      emitted_by next s = []
  end.
Proof.
  intros Hs Hdn Hcl. apply reachable_Inv in Hs.
  destruct s as [[b pc rc cp rw cols fn er rd dn cg cl cn pd wr wn wc oc hc]
                 [ps rs ms em sb]].
  cbn [self done closed] in Hdn, Hcl. subst dn cl.
  open_Inv Hs; use_clauses; subst.
  all: cbn [self buf]; destruct b as [|r rest].
  all: unfold get_row, emitted_by; unfold_methods; split_cases.
  all: repeat split; try reflexivity.
  all: repeat (cbn [emitted env] || rewrite settle_in_emitted); apply drop_all.
Qed.

(** ** The iteration adapter *)

Lemma iterator_next_after_end (s : State) :
  reachable s -> done (self s) = true -> closed (self s) = false ->
  match buf (self s) with
  | r :: rest =>
      iterator_next s = (Normal (IterYield r), exec next s) /\
      buf (self (exec next s)) = rest /\
      closed (self (exec next s)) = false /\
      done (self (exec next s)) = true
  | [] =>
      exists s', iterator_next s = (Normal IterDone, s') /\
                 closed (self s') = true /\ buf (self s') = []
  end.
Proof.
  intros Hs Hdn Hcl. apply reachable_Inv in Hs.
  destruct s as [[b pc rc cp rw cols fn er rd dn cg cl cn pd wr wn wc oc hc]
                 [ps rs ms em sb]].
  cbn [self done closed] in Hdn, Hcl. subst dn cl.
  open_Inv Hs; use_clauses; subst.
  all: cbn [self buf]; destruct b as [|r rest].
  all: unfold iterator_next, finally_close, get_row; unfold_methods; split_cases.
  all: try (repeat split; reflexivity).
  all: eexists; repeat split.
Qed.

(** X8. Iterating over a cursor whose producer is done, with [for await],
    never waits: it yields exactly the buffered rows, in buffer order,
    then ends, and leaves the cursor closed with an empty buffer. *)
Theorem for_await_drains (s : State) :
  reachable s -> done (self s) = true -> closed (self s) = false ->
  exists s',
    for_await (S (length (buf (self s)))) s = (buf (self s), Some IterDone, s') /\
    closed (self s') = true /\ buf (self s') = [].
Proof.
  remember (length (buf (self s))) as n eqn:Hn.
  revert s Hn. induction n as [|n IH]; intros s Hn Hs Hdn Hcl.
  - pose proof (iterator_next_after_end s Hs Hdn Hcl) as Hstep.
    destruct (buf (self s)) as [|r rest]; [|discriminate Hn].
    destruct Hstep as (s' & Hit & Hc & Hb).
    exists s'. cbn [for_await]. rewrite Hit. auto.
  - pose proof (iterator_next_after_end s Hs Hdn Hcl) as Hstep.
    destruct (buf (self s)) as [|r rest]; [discriminate Hn|].
    destruct Hstep as (Hstep & Hb & Hc & Hd).
    destruct (IH (exec next s)) as (s' & Hfa & Hc' & Hb').
    + rewrite Hb. cbn in Hn. congruence.
    + apply (reachable_perform RowsNext s Hs).
    + exact Hd.
    + exact Hc.
    + exists s'. change (for_await (S (S n)) s) with
        (match iterator_next s with
         | (Normal (IterYield r0), s0) =>
             let '(rows, out, s'') := for_await (S n) s0 in (r0 :: rows, out, s'')
         | (Normal k, s0) => ([], Some k, s0)
         | (Throw e, s0) => ([], Some (IterThrows e), s0)
         end).
      rewrite Hstep. rewrite Hb in Hfa. rewrite Hfa. auto.
Qed.


(** ** Columns *)

Lemma columns_kept (c : Call) (s : State) :
  ready (self s) = true -> (forall cols, c <> CtlSetColumns cols) ->
  columns (self (perform c s)) = columns (self s) /\
  fieldNames (self (perform c s)) = fieldNames (self s).
Proof.
  destruct s as [[b pc rc cp rw cols fn er rd dn cg cl cn pd wr wn wc oc hc]
                 [ps rs ms em sb]].
  cbn [self ready]. intros -> Hc.
  destruct c as [|cs|x|x|x| |v|e| | |]; try (now contradiction (Hc cs));
    [..|split; reflexivity].
  all: unfold_methods; split_cases; split; reflexivity.
Qed.

(** X10. After [setColumns(cols)] the [columnTypes] accessor returns
    [cols] and the [columns] accessor their names, and they keep doing so
    through every history of calls in which the producer does not call
    [setColumns] again; a later [setColumns] replaces them. *)
Theorem columns_round_trip (s : State) (cols : list ColumnInfo)
    (cs : list Call) :
  forallb (fun c => match c with CtlSetColumns _ => false | _ => true end) cs
    = true ->
  let s' := run (exec (Controller_setColumns cols) s) cs in
  result get_columnTypes s' = Normal cols /\
  result get_columns s' = Normal (map name cols) /\
  (forall cols',
     result get_columnTypes (exec (Controller_setColumns cols') s')
       = Normal cols').
Proof.
  intros Hcs. cbv zeta.
  assert (H0 : ready (self (exec (Controller_setColumns cols) s)) = true /\
               columns (self (exec (Controller_setColumns cols) s)) = Some cols /\
               fieldNames (self (exec (Controller_setColumns cols) s))
                 = Some (map name cols)).
  { destruct s as [[b pc rc cp rw cols0 fn er rd dn cg cl cn pd wr wn wc oc hc]
                   [ps rs ms em sb]].
    unfold_methods; split_cases; repeat split. }
  assert (H1 : forall s1,
            ready (self s1) = true -> columns (self s1) = Some cols ->
            fieldNames (self s1) = Some (map name cols) ->
            ready (self (run s1 cs)) = true /\
            columns (self (run s1 cs)) = Some cols /\
            fieldNames (self (run s1 cs)) = Some (map name cols)).
  { induction cs as [|c cs IH]; intros s1 Hr Hc Hf; [auto|].
    cbn in Hcs. apply andb_prop in Hcs as [Hnc Hcs].
    change (run s1 (c :: cs)) with (run (perform c s1) cs).
    destruct (columns_kept c s1 Hr) as [Hc' Hf'].
    { intros cols' ->. discriminate Hnc. }
    apply IH; auto; try congruence.
    apply ready_kept, Hr. }
  destruct H0 as (Hr & Hc & Hf).
  destruct (H1 _ Hr Hc Hf) as (Hr' & Hc' & Hf').
  repeat split.
  - unfold result, get_columnTypes, bind, this. cbn. rewrite Hc'. reflexivity.
  - unfold result, get_columns, bind, this. cbn. rewrite Hf'. reflexivity.
  - intros cols'.
    destruct (run (exec (Controller_setColumns cols) s) cs)
      as [[b pc rc cp rw cols0 fn er rd dn cg cl cn pd wr wn wc oc hc]
          [ps rs ms em sb]].
    unfold get_columnTypes. unfold_methods; split_cases; reflexivity.
Qed.

(** X11. An [end()] on a stream that is not ready sets the empty schema:
    afterwards both column accessors return the empty list. *)
Theorem end_sets_empty_columns (s : State) :
  ready (self s) = false ->
  result get_columns (exec Controller_end s) = Normal [] /\
  result get_columnTypes (exec Controller_end s) = Normal [] /\
  ready (self (exec Controller_end s)) = true.
Proof.
  destruct s as [[b pc rc cp rw cols0 fn er rd dn cg cl cn pd wr wn wc oc hc]
                 [ps rs ms em sb]].
  cbn [self ready]. intros ->.
  unfold get_columns, get_columnTypes. unfold_methods; split_cases.
  all: repeat split.
Qed.

(** ** Readiness *)

(** [use_clauses], also for clauses about a flag that is off. *)
Ltac use_clauses_off :=
  use_clauses;
  repeat (match goal with
          | H : false = false -> _ |- _ => specialize (H eq_refl)
          | H : true = false -> _ |- _ => clear H
          | H : ?x = false -> _ |- _ => is_var x; destruct x
          end; use_clauses).

Ltac ready_leaf :=
  unfold ReadyInv, settlement in *;
  cbn [self env ready done canceling closing closed fieldNames columns
       waitReady promises] in *;
  use_clauses_off;
  split; intros; simplify_eq; use_clauses_off;
  repeat split;
  try first
    [ reflexivity
    | assumption
    | discriminate
    | solve_lookup
    | apply lookup_alloc_at;
      repeat (progress (cbn [promises]; rewrite ?settle_in_length));
      reflexivity
    | let Hin := fresh "Hin" in
      intros Hin;
      first
        [ repeat match goal with
                 | H : forall t, t ∈ _ -> _ |- _ => clear H
                 end;
          use_clauses;
          match goal with
          | H : _ ∉ _ |- _ =>
              apply H; rewrite elem_of_app; first [now left | now right]
          end
        | use_clauses; first [ lia | congruence | contradiction ] ] ].

Lemma perform_preserves_ReadyInv (c : Call) (s : State) :
  Inv s -> ReadyInv s -> ReadyInv (perform c s).
Proof.
  destruct c as [|cs|x|x|x| |v|e| | |].
  11: {
    destruct s as [o [ps rs ms em sb]].
    intros Hs [Hflags Hr]. split; [exact Hflags|].
    intros p Hp. destruct (Hr p Hp) as (Hrd & Hpend & Hnt).
    unfold perform, exec, run_microtasks, update_env, settlement in *.
    cbn [snd self env promises reactions microtasks emitted subscribed] in *.
    destruct (drain_spec ms (mkRuntime ps rs [] em sb)) as (Hl & Hq & Hts & _).
    cbn [promises] in Hl, Hq.
    split; [exact Hrd|]. split.
    - rewrite Hq; auto. intros Hin. apply Hnt.
      unfold targets; cbn. apply elem_of_app. now right.
    - intros Hin. apply Hts in Hin. apply Hnt.
      unfold targets in *; cbn in *. apply elem_of_app in Hin.
      apply elem_of_app. destruct Hin as [Hin|Hin]; [now left|inversion Hin]. }
  all: destruct s as [[b pc rc cp rw cols fn er rd dn cg cl cn pd wr wn wc oc hc]
                 [ps rs ms em sb]].
  all: intros Hs Hrdy; open_Inv Hs; unfold_methods; split_cases.
  all: try assumption.
  all: ready_leaf.
Qed.

Lemma reachable_ReadyInv (s : State) : reachable s -> ReadyInv s.
Proof.
  intros (a & o & s0 & cs & Hnew & ->).
  assert (H0 : Inv s0 /\ ReadyInv s0).
  { split; [eapply new_RowStream_Inv, Hnew|].
    unfold new_RowStream in Hnew.
    destruct (_validateOptions _) as [[[cp pc] rc]|]; [|discriminate].
    injection Hnew as <-. split; cbn; [auto 10|discriminate]. }
  clear Hnew. revert s0 H0.
  induction cs as [|c cs IH]; intros s0 [Hi Hr]; [exact Hr|].
  apply IH. split.
  - apply perform_preserves_Inv, Hi.
  - apply perform_preserves_ReadyInv; assumption.
Qed.

(** X12. A stream is ready as soon as anything has happened to it: on
    every reachable stream, columns being set, or the stream being done,
    canceling, closing or closed, each imply [ready]. So a stream that is
    not ready is still untouched by the producer's end, by errors, by
    cancellation and by [close()]. *)
Theorem ready_once_started (s : State) :
  reachable s ->
  fieldNames (self s) <> None \/ columns (self s) <> None \/
  done (self s) = true \/ canceling (self s) = true \/
  closing (self s) = true \/ closed (self s) = true ->
  ready (self s) = true.
Proof.
  intros Hs H. apply reachable_ReadyInv in Hs. destruct Hs as [Hflags _].
  destruct (ready (self s)); [reflexivity|].
  destruct (Hflags eq_refl) as (H1 & H2 & H3 & H4 & H5 & H6).
  destruct H as [H|[H|[H|[H|[H|H]]]]]; congruence.
Qed.

Lemma ready_promise_fulfilled (s : State) (p : PromiseId) :
  Inv s -> ReadyInv s -> waitReady (self s) = Some p ->
  (forall cols, settlement (perform (CtlSetColumns cols) s) p
                = Some (Fulfilled (VError None))) /\
  settlement (perform CtlEnd s) p = Some (Fulfilled (VError None)) /\
  settlement (perform RowsClose s) p = Some (Fulfilled (VError None)) /\
  (forall v, settlement (perform (CtlError v) s) p
             = Some (Fulfilled (VError (Some (normalize_error v))))) /\
  (forall e, subscribed (env s) = true ->
             settlement (perform (CancelerFire e) s) p
             = Some (Fulfilled (VError (Some e)))).
Proof.
  destruct s as [[b pc rc cp rw cols fn er rd dn cg cl cn pd wr wn wc oc hc]
                 [ps rs ms em sb]].
  intros Hs Hrdy Hwr. cbn [self waitReady] in Hwr. subst wr.
  open_Inv Hs. unfold ReadyInv, settlement in Hrdy.
  cbn [self env ready done canceling closing closed fieldNames columns
       waitReady promises] in Hrdy.
  use_clauses_off; subst.
  all: cbn [env subscribed].
  all: repeat split; intros; subst; unfold settlement;
    unfold_methods; split_cases; cbn [env]; solve_lookup.
Qed.

(** X13. [ready()] on a reachable stream. If the stream is ready, the call
    returns a promise already fulfilled with the stored error (or null)
    and changes nothing. If it is not, the call returns a pending promise,
    a second [ready()] returns the same promise without creating another,
    and the promise is fulfilled by whichever comes first: with null by
    [setColumns], [end()] or the consumer's [close()], with the normalized
    error by [error(err)], with the cancellation error when the canceler
    fires. *)
Theorem ready_resolution (s : State) :
  reachable s ->
  (ready (self s) = true ->
   result Controller_ready s = Normal (Returned (err (self s))) /\
   exec Controller_ready s = s) /\
  (ready (self s) = false ->
   exists p,
     result Controller_ready s = Normal (Settles p) /\
     let s1 := exec Controller_ready s in
     settlement s1 p = Some Pending /\
     result Controller_ready s1 = Normal (Settles p) /\
     exec Controller_ready s1 = s1 /\
     (forall cols, settlement (perform (CtlSetColumns cols) s1) p
                   = Some (Fulfilled (VError None))) /\
     settlement (perform CtlEnd s1) p = Some (Fulfilled (VError None)) /\
     settlement (perform RowsClose s1) p = Some (Fulfilled (VError None)) /\
     (forall v, settlement (perform (CtlError v) s1) p
                = Some (Fulfilled (VError (Some (normalize_error v))))) /\
     (forall e, subscribed (env s1) = true ->
                settlement (perform (CancelerFire e) s1) p
                = Some (Fulfilled (VError (Some e))))).
Proof.
  intros Hs. split.
  - destruct s as [[b pc rc cp rw cols fn er rd dn cg cl cn pd wr wn wc oc hc] r].
    cbn [self ready]. intros ->. unfold_methods. split; reflexivity.
  - intros Hrd.
    pose proof (reachable_perform CtlReady s Hs) as Hs1.
    change (perform CtlReady s) with (exec Controller_ready s) in Hs1.
    pose proof (reachable_Inv _ Hs1) as Hi1.
    pose proof (reachable_ReadyInv _ Hs1) as Hr1.
    assert (Hp : exists p,
      result Controller_ready s = Normal (Settles p) /\
      waitReady (self (exec Controller_ready s)) = Some p /\
      ready (self (exec Controller_ready s)) = false).
    { destruct s as [[b pc rc cp rw cols fn er rd dn cg cl cn pd wr wn wc oc hc]
                     [ps rs ms em sb]].
      cbn [self ready] in Hrd. subst rd.
      unfold_methods; split_cases; eexists; repeat split. }
    destruct Hp as (p & Hres & Hwr & Hrd1).
    exists p. split; [exact Hres|]. cbv zeta.
    destruct (ready_promise_fulfilled _ p Hi1 Hr1 Hwr) as (H1 & H2 & H3 & H4 & H5).
    split; [apply (proj2 Hr1 p Hwr)|].
    assert (Hagain :
      result Controller_ready (exec Controller_ready s) = Normal (Settles p) /\
      exec Controller_ready (exec Controller_ready s) = exec Controller_ready s).
    { destruct (exec Controller_ready s)
        as [[b pc rc cp rw cols fn er rd dn cg cl cn pd wr wn wc oc hc] r].
      cbn [self waitReady ready] in Hwr, Hrd1. subst wr rd.
      unfold_methods. split; reflexivity. }
    destruct Hagain as [Ha1 Ha2].
    repeat split; assumption.
Qed.

(** ** The canceler's registration *)

Lemma settle_in_subscribed p o r : subscribed (settle_in p o r) = subscribed r.
Proof. unfold settle_in. now destruct (promises r !! p) as [[]|]. Qed.

Lemma drain_subscribed (ms : list PromiseId) (r : Runtime) :
  subscribed
    (fold_left (fun r' tgt => settle_in tgt (Fulfilled (VBool false)) r') ms r)
  = subscribed r.
Proof.
  revert r. induction ms as [|m ms IH]; intros r; cbn; [reflexivity|].
  now rewrite IH, settle_in_subscribed.
Qed.

Ltac sub_leaf :=
  unfold SubInv in *;
  cbn [self env onCancel canceling closed subscribed] in *;
  repeat (cbn [subscribed] || rewrite settle_in_subscribed);
  use_clauses_off;
  repeat split; intros; simplify_eq;
  first [ reflexivity | assumption | discriminate | congruence ].

Lemma perform_preserves_SubInv (c : Call) (s : State) :
  Inv s -> SubInv s -> SubInv (perform c s).
Proof.
  destruct c as [|cs|x|x|x| |v|e| | |].
  11: {
    destruct s as [o [ps rs ms em sb]].
    intros _ [Hsub Hoc]. split; [|exact Hoc].
    unfold perform, exec, run_microtasks, update_env in *.
    cbn [snd self env] in *. now rewrite drain_subscribed. }
  all: destruct s as [[b pc rc cp rw cols fn er rd dn cg cl cn pd wr wn wc oc hc]
                 [ps rs ms em sb]].
  all: intros Hs Hsub; destruct Hs as [_ _ Hcg Hcl _ He _ _].
  all: unfold settlement in *;
    cbn [self env done closing closed canceling err waitClose promises] in *.
  all: unfold_methods; split_cases.
  all: try assumption.
  all: sub_leaf.
Qed.

Lemma reachable_SubInv (s : State) : reachable s -> SubInv s.
Proof.
  intros (a & o & s0 & cs & Hnew & ->).
  assert (H0 : Inv s0 /\ SubInv s0).
  { split; [eapply new_RowStream_Inv, Hnew|].
    unfold new_RowStream in Hnew.
    destruct (_validateOptions _) as [[[cp pc] rc]|]; [|discriminate].
    injection Hnew as <-. split; cbn; auto. }
  clear Hnew. revert s0 H0.
  induction cs as [|c cs IH]; intros s0 [Hi Hr]; [exact Hr|].
  apply IH. split.
  - apply perform_preserves_Inv, Hi.
  - apply perform_preserves_SubInv; assumption.
Qed.

Lemma released_when_canceling (s : State) :
  reachable s ->
  canceling (self s) = true \/ closing (self s) = true \/
  closed (self s) = true -> subscribed (env s) = false.
Proof.
  intros Hs H.
  pose proof (reachable_Inv _ Hs) as Hi.
  destruct (reachable_SubInv _ Hs) as [Hsub Hoc].
  rewrite Hsub. destruct (onCancel (self s)); [|reflexivity].
  destruct (Hoc eq_refl) as [Hcn Hcl].
  destruct H as [H|[H|H]]; try congruence.
  apply (inv_closing _ Hi) in H. destruct H as (H & _). congruence.
Qed.

Lemma canceler_fire_releases (s : State) (e : Error) :
  reachable s -> subscribed (env (exec (canceler_fire e) s)) = false.
Proof.
  intros Hs.
  destruct (subscribed (env s)) eqn:Hsub.
  - apply released_when_canceling;
      [apply (reachable_perform (CancelerFire e) s Hs)|].
    left. destruct (reachable_SubInv _ Hs) as [Hso Hoc].
    destruct s as [[b pc rc cp rw cols fn er rd dn cg cl cn pd wr wn wc oc hc]
                   [ps rs ms em sb]].
    cbn [self env subscribed onCancel canceling closed] in *. subst.
    destruct (Hoc eq_refl) as [-> ->].
    unfold_methods; split_cases; reflexivity.
  - unfold exec, canceler_fire. rewrite Hsub. exact Hsub.
Qed.

(** X14. The stream releases its registration with the canceler: on every
    reachable stream that is canceling, closing or closed the canceler no
    longer holds the stream's callback. In particular the callback is gone
    after any [close()], any firing of the canceler and any
    [error(err)]. *)
Theorem canceler_released (s : State) :
  reachable s ->
  (canceling (self s) = true \/ closing (self s) = true \/
   closed (self s) = true -> subscribed (env s) = false) /\
  subscribed (env (exec close s)) = false /\
  (forall e, subscribed (env (exec (canceler_fire e) s)) = false) /\
  (forall v, subscribed (env (exec (Controller_error v) s)) = false).
Proof.
  intros Hs.
  split; [apply released_when_canceling, Hs|]. split; [|split].
  - apply released_when_canceling;
      [apply (reachable_perform RowsClose s Hs)|].
    destruct (close_closes s) as [H|H]; auto.
  - intros e. apply canceler_fire_releases, Hs.
  - intros v. apply released_when_canceling;
      [apply (reachable_perform (CtlError v) s Hs)|].
    left. apply error_cancels.
Qed.

(** X15. When the canceler fires on a stream it is still registered with,
    the stream stores the cancellation error, is done, canceling and
    closed, rejects the pending pull (if any) with that error, and emits
    'cancel' then 'complete', once each. A second firing changes
    nothing. *)
Theorem external_cancellation (s : State) (e : Error) :
  reachable s -> subscribed (env s) = true ->
  let s' := exec (canceler_fire e) s in
  err (self s') = Some e /\
  done (self s') = true /\ canceling (self s') = true /\
  closed (self s') = true /\
  waitNext (self s') = None /\
  (forall p, waitNext (self s) = Some p ->
             settlement s' p = Some (Rejected e)) /\
  emitted_by (canceler_fire e) s = [EvCancel; EvComplete] /\
  (forall e', exec (canceler_fire e') s' = s').
Proof.
  intros Hs Hsub. cbv zeta.
  pose proof (reachable_Inv _ Hs) as Hi.
  destruct (reachable_SubInv _ Hs) as [Hso Hoc].
  assert (Hcn : canceling (self s) = false).
  { rewrite Hso in Hsub. now destruct (Hoc Hsub). }
  pose proof (cancel_emits_complete_once s e Hsub Hcn) as Hev.
  assert (Hrel : subscribed (env (exec (canceler_fire e) s)) = false).
  { apply canceler_fire_releases, Hs. }
  destruct s as [[b pc rc cp rw cols fn er rd dn cg cl cn pd wr wn wc oc hc]
                 [ps rs ms em sb]].
  cbn [self env subscribed canceling] in Hsub, Hcn. subst sb cn.
  assert (Hmain :
    err (self (exec (canceler_fire e)
       (mkState (mkRowStream b pc rc cp rw cols fn er rd dn cg cl false pd wr
                   wn wc oc hc) (mkRuntime ps rs ms em true)))) = Some e /\
    done (self (exec (canceler_fire e)
       (mkState (mkRowStream b pc rc cp rw cols fn er rd dn cg cl false pd wr
                   wn wc oc hc) (mkRuntime ps rs ms em true)))) = true /\
    canceling (self (exec (canceler_fire e)
       (mkState (mkRowStream b pc rc cp rw cols fn er rd dn cg cl false pd wr
                   wn wc oc hc) (mkRuntime ps rs ms em true)))) = true /\
    closed (self (exec (canceler_fire e)
       (mkState (mkRowStream b pc rc cp rw cols fn er rd dn cg cl false pd wr
                   wn wc oc hc) (mkRuntime ps rs ms em true)))) = true /\
    waitNext (self (exec (canceler_fire e)
       (mkState (mkRowStream b pc rc cp rw cols fn er rd dn cg cl false pd wr
                   wn wc oc hc) (mkRuntime ps rs ms em true)))) = None /\
    (forall p, wn = Some p ->
       settlement (exec (canceler_fire e)
         (mkState (mkRowStream b pc rc cp rw cols fn er rd dn cg cl false pd wr
                     wn wc oc hc) (mkRuntime ps rs ms em true))) p
       = Some (Rejected e))).
  { clear - Hi.
    open_Inv Hi; use_clauses; subst.
    all: unfold settlement; unfold_methods; split_cases.
    all: repeat split; intros; simplify_eq; cbn [env]; solve_lookup. }
  destruct Hmain as (H1 & H2 & H3 & H4 & H5 & H6).
  do 5 (split; [assumption|]).
  split; [exact H6|].
  split; [exact Hev|].
  intros e'. unfold exec at 1. unfold canceler_fire at 1.
  rewrite Hrel. reflexivity.
Qed.

(** ** Backpressure events *)

Lemma replay_backpressure_app (l1 l2 : list Event) : forall flag,
  replay_backpressure flag (l1 ++ l2)
  = match replay_backpressure flag l1 with
    | Some flag' => replay_backpressure flag' l2
    | None => None
    end.
Proof.
  induction l1 as [|e l1 IH]; intros flag; [reflexivity|].
  destruct e, flag; cbn; auto.
Qed.

Lemma count_event_app (e : Event) (l1 l2 : list Event) :
  count_event e (l1 ++ l2) = (count_event e l1 + count_event e l2)%nat.
Proof. apply count_occ_app. Qed.

Lemma microtasks_emitted (s : State) :
  emitted (env (perform Microtasks s)) = emitted (env s) /\
  self (perform Microtasks s) = self s.
Proof.
  destruct s as [o [ps rs ms em sb]].
  destruct (drain_spec ms (mkRuntime ps rs [] em sb)) as (_ & _ & _ & He).
  split; [exact He | reflexivity].
Qed.

Ltac bp_leaf :=
  unfold BackpressureInv in *;
  cbn [self env canPause paused emitted] in *;
  repeat (cbn [emitted env] || rewrite settle_in_emitted);
  rewrite <- ?app_assoc; cbn [app];
  match goal with
  | H : _ /\ _ |- _ =>
      let Hr := fresh "Hr" in
      let Hc := fresh "Hc" in
      destruct H as [Hr Hc];
      split;
      [ first [ exact Hr
              | rewrite replay_backpressure_app, Hr; reflexivity ]
      | let Hcp := fresh "Hcp" in
        intros Hcp; try discriminate Hcp;
        destruct (Hc Hcp) as (? & ? & ?);
        rewrite ?count_event_app;
        repeat split;
        first [ assumption | discriminate
              | match goal with
                | H1 : count_event _ _ = 0%nat |- _ => rewrite H1; reflexivity
                end ] ]
  end.

Lemma perform_preserves_BackpressureInv (c : Call) (s : State) :
  BackpressureInv s -> BackpressureInv (perform c s).
Proof.
  destruct c as [|cs|x|x|x| |v|e| | |].
  11: {
    unfold BackpressureInv.
    destruct (microtasks_emitted s) as [-> ->]. auto. }
  all: destruct s as [[b pc rc cp rw cols fn er rd dn cg cl cn pd wr wn wc oc hc]
                 [ps rs ms em sb]].
  all: intros H; unfold_methods; split_cases.
  all: try assumption.
  all: bp_leaf.
Qed.

Lemma reachable_BackpressureInv (s : State) : reachable s -> BackpressureInv s.
Proof.
  intros (a & o & s0 & cs & Hnew & ->).
  assert (H0 : BackpressureInv s0).
  { unfold new_RowStream in Hnew.
    destruct (_validateOptions _) as [[[cp pc] rc]|]; [|discriminate].
    injection Hnew as <-. split; cbn; auto. }
  clear Hnew. revert s0 H0.
  induction cs as [|c cs IH]; intros s0 H0; [exact H0|].
  apply IH, perform_preserves_BackpressureInv, H0.
Qed.

(** X16. In every history the 'pause' and 'resume' events alternate,
    starting with 'pause': each 'pause' is emitted while the stream is not
    paused and each 'resume' while it is paused, and the paused flag (as
    [RowStream.stats] reports it) tells which of the two came last. *)
Theorem pause_resume_alternate (s : State) :
  reachable s ->
  replay_backpressure false (emitted (env s)) = Some (stats_paused (stats s)).
Proof. intros Hs. apply reachable_BackpressureInv, Hs. Qed.

(** X17. A stream constructed without options (with or without a
    canceler) never emits 'pause' or 'resume' and is never paused, however
    many rows are buffered. *)
Theorem no_backpressure_without_options (withCanceler : bool) (s0 : State)
    (cs : list Call) :
  new_RowStream (if withCanceler then Some ArgCanceler else None) None
    = Normal s0 ->
  count_event EvPause (emitted (env (run s0 cs))) = 0%nat /\
  count_event EvResume (emitted (env (run s0 cs))) = 0%nat /\
  paused (self (run s0 cs)) = false /\
  canPause (self (run s0 cs)) = false.
Proof.
  intros Hnew.
  assert (Hcp : forall cs' s, canPause (self (run s cs')) = canPause (self s)).
  { induction cs' as [|c cs' IH]; intros s; [reflexivity|].
    change (run s (c :: cs')) with (run (perform c s) cs'). rewrite IH.
    destruct c as [|cs1|x|x|x| |v|e| | |]; [..|reflexivity].
    all: destruct s as [[b pc rc cp rw cols fn er rd dn cg cl cn pd wr wn wc oc hc]
                   [ps rs ms em sb]].
    all: unfold_methods; split_cases; reflexivity. }
  assert (Hr : reachable (run s0 cs)) by (eapply reachable_run, reachable_new, Hnew).
  destruct (reachable_BackpressureInv _ Hr) as [_ Hc].
  assert (H0 : canPause (self (run s0 cs)) = false).
  { rewrite Hcp. destruct withCanceler; injection Hnew as <-; reflexivity. }
  destruct (Hc H0) as (H1 & H2 & H3). auto.
Qed.

(** ** Watermarks *)

Ltac wm_leaf :=
  unfold Watermarks in *;
  cbn [self canPause pauseCount resumeCount paused buf] in *;
  let Hcp := fresh "Hcp" in
  intros Hcp; try discriminate Hcp;
  match goal with
  | H : true = true -> _ |- _ =>
      destruct (H eq_refl) as (? & ? & ? & ? & ? & ? & ?)
  end;
  simplify_eq;
  eexists; eexists; (split; [reflexivity|]); (split; [reflexivity|]);
  unfold ge_count, le_count in *;
  rewrite ?length_app in *; cbn [length] in *;
  repeat match goal with
         | H : (_ <=? _) = true |- _ => apply Z.leb_le in H
         | H : (_ <=? _) = false |- _ => apply Z.leb_gt in H
         | H : true = true -> _ |- _ => specialize (H eq_refl)
         | H : false = false -> _ |- _ => specialize (H eq_refl)
         | H : true = false -> _ |- _ => clear H
         | H : false = true -> _ |- _ => clear H
         end;
  repeat split; intros; try discriminate; try reflexivity; lia.

Lemma perform_preserves_Watermarks (c : Call) (s : State) :
  Watermarks s -> Watermarks (perform c s).
Proof.
  destruct c as [|cs|x|x|x| |v|e| | |]; [..|intros H; exact H].
  all: destruct s as [[b pc rc cp rw cols fn er rd dn cg cl cn pd wr wn wc oc hc]
                 [ps rs ms em sb]].
  all: intros H; unfold_methods; split_cases.
  all: try assumption.
  all: wm_leaf.
Qed.

(** X18. On every stream constructed with backpressure, the paused flag
    tracks the watermarks through every history: while the stream is not
    paused the buffer holds fewer than [pauseCount] rows, and while it is
    paused the buffer holds more than [resumeCount] rows. The configured
    counts satisfy [0 <= resumeCount < pauseCount] and never change. *)
Theorem paused_tracks_watermarks (s : State) :
  reachable s -> canPause (self s) = true ->
  exists pc rc,
    pauseCount (self s) = Some pc /\ resumeCount (self s) = Some rc /\
    0 <= rc < pc /\
    (paused (self s) = false -> Z.of_nat (size s) < pc) /\
    (paused (self s) = true -> rc < Z.of_nat (size s)).
Proof.
  intros (a & o & s0 & cs & Hnew & ->).
  assert (H0 : Watermarks s0).
  { intros Hcp. destruct (constructed_watermarks a o s0 Hnew Hcp)
      as (pc & rc & Hpc & Hrc & Hb & H2).
    exists pc, rc. repeat split; auto; try lia.
    - intros _. unfold new_RowStream in Hnew.
      destruct (_validateOptions _) as [[[cp pc'] rc']|]; [|discriminate].
      injection Hnew as <-. cbn. lia.
    - intros Hp. unfold new_RowStream in Hnew.
      destruct (_validateOptions _) as [[[cp pc'] rc']|]; [|discriminate].
      injection Hnew as <-. discriminate Hp. }
  clear Hnew. revert s0 H0.
  induction cs as [|c cs IH]; intros s0 H0; [exact H0|].
  apply IH, perform_preserves_Watermarks, H0.
Qed.

(** ** Pulls that are pending when the cursor is closed *)

Lemma settle_in_keeps_settled p o r q x :
  promises r !! q = Some x -> x <> Pending ->
  promises (settle_in p o r) !! q = Some x.
Proof.
  intros Hq Hx. destruct (Nat.eq_dec q p) as [->|Hne].
  - unfold settle_in. rewrite Hq. destruct x; [contradiction|exact Hq..].
  - now rewrite settle_in_lookup_ne.
Qed.

Lemma settle_in_queues c v r p :
  promises r !! c = Some Pending -> (c, p) ∈ reactions r ->
  p ∈ microtasks (settle_in c (Fulfilled v) r).
Proof.
  intros Hc Hin. unfold settle_in. rewrite Hc. cbn.
  apply elem_of_app. right.
  apply list_elem_of_In, in_map_iff. exists (c, p). split; [reflexivity|].
  apply filter_In. split; [now apply list_elem_of_In|].
  cbn. apply Nat.eqb_refl.
Qed.

Lemma drain_fulfils (ms : list PromiseId) (p : PromiseId) : forall r,
  p ∈ ms ->
  promises r !! p = Some Pending \/
  promises r !! p = Some (Fulfilled (VBool false)) ->
  promises
    (fold_left (fun r' tgt => settle_in tgt (Fulfilled (VBool false)) r') ms r)
    !! p = Some (Fulfilled (VBool false)).
Proof.
  induction ms as [|m ms IH]; intros r Hin Hp; [inversion Hin|].
  cbn [fold_left].
  assert (Hstep : m = p ->
            promises (settle_in m (Fulfilled (VBool false)) r) !! p
            = Some (Fulfilled (VBool false))).
  { intros ->. destruct Hp as [Hp|Hp].
    - now apply settle_in_lookup_pending.
    - apply settle_in_keeps_settled; [exact Hp|discriminate]. }
  destruct (Nat.eq_dec m p) as [Heq|Hne].
  - specialize (Hstep Heq).
    destruct (decide (p ∈ ms)) as [Hin'|Hnin].
    + apply IH; auto.
    + destruct (drain_spec ms (settle_in m (Fulfilled (VBool false)) r))
        as (_ & Hq & _). cbv zeta in Hq. rewrite Hq; auto.
  - apply elem_of_cons in Hin. destruct Hin as [->|Hin]; [contradiction|].
    apply IH; auto.
    rewrite settle_in_lookup_ne by congruence. exact Hp.
Qed.

Lemma microtasks_fulfil (s : State) (p : PromiseId) :
  p ∈ microtasks (env s) -> settlement s p = Some Pending ->
  settlement (exec run_microtasks s) p = Some (Fulfilled (VBool false)).
Proof.
  destruct s as [o [ps rs ms em sb]]. unfold settlement. cbn [env microtasks promises].
  intros Hin Hp.
  unfold exec, run_microtasks, update_env. cbn [snd env].
  apply drain_fulfils; auto.
Qed.

(** [solve_lookup], also past promises created later. *)
Ltac solve_lookup_fresh :=
  cbn [promises];
  first
    [ assumption
    | apply lookup_alloc_new
    | apply lookup_alloc_at;
      repeat (progress (cbn [promises]; rewrite ?settle_in_length));
      reflexivity
    | apply lookup_alloc_old; solve_lookup_fresh
    | rewrite settle_in_lookup_ne
        by first [ congruence
                 | match goal with
                   | H : _ !! ?p = Some _ |- ?p <> _ =>
                       apply lookup_bound in H;
                       rewrite ?length_app; cbn [length]; lia
                   end ];
      solve_lookup_fresh
    | apply settle_in_lookup_pending; solve_lookup_fresh ].

Lemma close_end_queues (s : State) (p : PromiseId) :
  reachable s -> waitNext (self s) = Some p ->
  waitNext (self (exec close s)) = None /\
  settlement (exec close s) p = Some Pending /\
  result next (exec close s) <> Normal (Returned true) /\
  settlement (exec Controller_end (exec close s)) p = Some Pending /\
  closed (self (exec Controller_end (exec close s))) = true /\
  p ∈ microtasks (env (exec Controller_end (exec close s))).
Proof.
  intros Hs Hwn.
  pose proof (reachable_Inv _ Hs) as Hi.
  destruct (reachable_ReadyInv _ Hs) as [Hflags _].
  destruct s as [[b pc rc cp rw cols fn er rd dn cg cl cn pd wr wn wc oc hc]
                 [ps rs ms em sb]].
  cbn [self waitNext] in Hwn. subst wn.
  cbn [self ready done canceling closing closed fieldNames columns] in Hflags.
  open_Inv Hi; use_clauses; subst.
  all: unfold settlement; unfold_methods; split_cases.
  all: cbn [self env waitNext closed].
  all: repeat (progress (cbn [promises]; rewrite ?settle_in_length)).
  all: repeat split; try discriminate; try solve_lookup_fresh.
  all: apply settle_in_queues; cbn [promises reactions];
    [ solve_lookup_fresh
    | apply elem_of_app; right; apply list_elem_of_singleton; reflexivity ].
Qed.

(** X19. A pull that is pending when the consumer calls [close()] is not
    lost: it stays pending while the close waits for the producer, and
    once the producer has called [end()] and the microtask queue has run,
    it is fulfilled with [false]. The cursor is closed as soon as the
    producer ends. *)
Theorem pending_pull_survives_close (s : State) (p : PromiseId) :
  reachable s -> waitNext (self s) = Some p ->
  let s1 := exec close s in
  let s2 := exec Controller_end s1 in
  let s3 := exec run_microtasks s2 in
  settlement s1 p = Some Pending /\
  waitNext (self s1) = None /\
  settlement s2 p = Some Pending /\
  isClosed s2 = true /\
  settlement s3 p = Some (Fulfilled (VBool false)).
Proof.
  intros Hs Hwn. cbv zeta.
  destruct (close_end_queues s p Hs Hwn) as (H1 & H2 & _ & H4 & H5 & H6).
  repeat split; auto.
  apply microtasks_fulfil; assumption.
Qed.

(** ** Hand-off and delivery *)

(** X20. A push that finds a pull pending hands its row over directly:
    the pending pull is fulfilled with [true], the [row] accessor returns
    the normalized row, the buffer stays empty, and no event is emitted; a
    hand-off never counts towards [pauseCount]. *)
Theorem push_hands_row_to_pending_pull (s : State) (p : PromiseId)
    (names : list string) (c : Call) :
  reachable s -> waitNext (self s) = Some p ->
  fieldNames (self s) = Some names -> is_push c = true ->
  exists r,
    pushed_row (Some names) c = [r] /\
    settlement (perform c s) p = Some (Fulfilled (VBool true)) /\
    result get_row (perform c s) = Normal r /\
    buf (self (perform c s)) = [] /\
    waitNext (self (perform c s)) = None /\
    emitted (env (perform c s)) = emitted (env s) /\
    paused (self (perform c s)) = paused (self s).
Proof.
  intros Hs Hwn Hfn Hc.
  destruct (push_as_pushRow c s names Hfn Hc) as (r & Hr & Hstep).
  exists r. split; [exact Hr|]. rewrite Hstep. clear Hstep Hr Hc.
  apply reachable_Inv in Hs.
  destruct s as [[b pc rc cp rw cols fn er rd dn cg cl cn pd wr wn wc oc hc]
                 [ps rs ms em sb]].
  cbn [self waitNext] in Hwn. subst wn.
  open_Inv Hs; use_clauses; subst.
  all: unfold settlement, get_row; unfold_methods; split_cases.
  all: cbn [self env buf waitNext paused emitted].
  all: repeat split; rewrite ?settle_in_emitted; try reflexivity; solve_lookup.
Qed.

Lemma closing_or_closed_kept (c : Call) (s : State) :
  Inv s ->
  (closing (self s) = true \/ closed (self s) = true) ->
  waitNext (self s) = None ->
  (closing (self (perform c s)) = true \/ closed (self (perform c s)) = true) /\
  waitNext (self (perform c s)) = None /\
  delivers c s = [].
Proof.
  destruct s as [[b pc rc cp rw cols fn er rd dn cg cl cn pd wr wn wc oc hc]
                 [ps rs ms em sb]].
  intros Hs Hc Hwn. cbn [self closing closed waitNext] in Hc, Hwn. subst wn.
  destruct c as [|cs|x|x|x| |v|e'| | |];
    [..|split; [exact Hc|split; reflexivity]].
  all: open_Inv Hs; use_clauses; subst.
  all: unfold delivers, fulfils_pull; unfold_methods; split_cases.
  all: cbn [self closing closed waitNext].
  all: repeat split; try reflexivity;
    first [left; reflexivity | right; reflexivity].
Qed.

(** X21. After a [close()] the consumer never receives another row: in
    every history that follows, no call fulfils a pull with [true],
    whatever the producer pushes, and the cursor stays closing or
    closed. *)
Theorem no_delivery_after_close (s : State) (cs : list Call) :
  reachable s ->
  delivered (exec close s) cs = [] /\
  (closing (self (run (exec close s) cs)) = true \/
   closed (self (run (exec close s) cs)) = true).
Proof.
  intros Hs.
  assert (H1 : Inv (exec close s) /\
               (closing (self (exec close s)) = true \/
                closed (self (exec close s)) = true) /\
               waitNext (self (exec close s)) = None).
  { split; [apply (perform_preserves_Inv RowsClose), reachable_Inv, Hs|].
    split; [destruct (close_closes s) as [H|H]; auto|].
    apply reachable_Inv in Hs.
    destruct s as [[b pc rc cp rw cols fn er rd dn cg cl cn pd wr wn wc oc hc]
                   [ps rs ms em sb]].
    open_Inv Hs; use_clauses; subst.
    all: unfold_methods; split_cases; first [reflexivity | discriminate]. }
  revert H1. generalize (exec close s). clear s Hs.
  induction cs as [|c cs IH]; intros s (Hi & Hc & Hwn); [auto|].
  destruct (closing_or_closed_kept c s Hi Hc Hwn) as (Hc' & Hwn' & Hd).
  change (run s (c :: cs)) with (run (perform c s) cs).
  cbn [delivered]. rewrite Hd. cbn [app].
  apply IH. auto using perform_preserves_Inv.
Qed.

(** X22. A pull on a cursor that was closed: if the cursor is closed it
    returns [false] at once; if it is still closing it returns a promise
    that resolves to [false] once the pending close promise resolves.
    Either way the call changes nothing. *)
Theorem next_after_close (s : State) :
  reachable s ->
  (closed (self s) = true ->
   result next s = Normal (Returned false) /\ exec next s = s) /\
  (closing (self s) = true ->
   exists c, waitClose (self s) = Some c /\
             settlement s c = Some Pending /\
             result next s = Normal (AwaitThen c false) /\
             exec next s = s).
Proof.
  intros Hs. apply reachable_Inv in Hs.
  destruct s as [[b pc rc cp rw cols fn er rd dn cg cl cn pd wr wn wc oc hc]
                 [ps rs ms em sb]].
  cbn [self closed closing waitClose]. split.
  - intros ->. unfold_methods. split; reflexivity.
  - intros ->. open_Inv Hs; use_clauses; subst; try discriminate.
    all: eexists; split; [reflexivity|]; split; [eassumption|].
    all: unfold_methods; split_cases; split; reflexivity.
Qed.

(** ** The row accessor *)

Lemma row_changes_on_delivery (c : Call) (s : State) :
  Inv s ->
  row (self (perform c s)) = row (self s) \/
  exists r, row (self (perform c s)) = Some r /\ fulfils_pull c s = true.
Proof.
  destruct s as [[b pc rc cp rw cols fn er rd dn cg cl cn pd wr wn wc oc hc]
                 [ps rs ms em sb]].
  intros Hs.
  destruct c as [|cs|x|x|x| |v|e'| | |]; [..|left; reflexivity].
  all: open_Inv Hs; use_clauses; subst.
  all: unfold fulfils_pull, settlement; unfold_methods; split_cases.
  all: cbn [self env row waitNext].
  all: try (left; reflexivity).
  all: right; eexists; split; [reflexivity|].
  all: repeat match goal with
       | H : ?l !! ?p = Some Pending |- context [?l !! ?p] => rewrite H
       | H : ?l !! ?p = Some Pending
         |- context [promises (settle_in ?p ?o ?r) !! ?p] =>
           rewrite (settle_in_lookup_pending p o r H)
       end.
  all: unfold_methods; split_cases; reflexivity.
Qed.

Lemma row_step (c : Call) (s : State) :
  Inv s ->
  result get_row (perform c s)
  = match delivers c s with
    | r :: _ => Normal r
    | [] => result get_row s
    end.
Proof.
  intros Hs.
  assert (Hrow : forall t : State,
            result get_row t
            = match row (self t) with
              | Some r => Normal r
              | None => Throw (mkError "No row loaded. Call next()")
              end).
  { intros [[b pc rc cp [r|] cols fn er rd dn cg cl cn pd wr wn wc oc hc] e];
      reflexivity. }
  destruct (row_changes_on_delivery c s Hs) as [Heq | (r & Hr & Hf)].
  - unfold delivers. destruct (fulfils_pull c s).
    + destruct (result get_row (perform c s)) as [r|e] eqn:Hg; [reflexivity|].
      rewrite <- Hg, !Hrow, Heq. reflexivity.
    + rewrite !Hrow, Heq. reflexivity.
  - unfold delivers. rewrite Hf, Hrow, Hr. reflexivity.
Qed.

Lemma row_after_run (cs : list Call) : forall s : State,
  Inv s ->
  result get_row (run s cs)
  = match last (delivered s cs) with
    | Some r => Normal r
    | None => result get_row s
    end.
Proof.
  induction cs as [|c cs IH]; intros s Hs; [reflexivity|].
  change (run s (c :: cs)) with (run (perform c s) cs).
  cbn [delivered]. rewrite last_app, IH by auto using perform_preserves_Inv.
  destruct (last (delivered (perform c s) cs)); [reflexivity|].
  rewrite (row_step c s Hs). unfold delivers.
  destruct (fulfils_pull c s); [|reflexivity].
  destruct (result get_row (perform c s)); reflexivity.
Qed.

(** X23. The [row] accessor always returns the row of the last pull that
    was fulfilled with [true], and throws 'No row loaded. Call next()' as
    long as there was none. The row stays readable when the stream ends,
    fails or is closed, and pushes that are only buffered do not disturb
    it. *)
Theorem row_is_last_delivered (a : option CtorArg)
    (o : option RowStreamOptions.t) (s0 : State) (cs : list Call) :
  new_RowStream a o = Normal s0 ->
  result get_row (run s0 cs)
  = match last (delivered s0 cs) with
    | Some r => Normal r
    | None => Throw (mkError "No row loaded. Call next()")
    end.
Proof.
  intros Hnew.
  rewrite row_after_run by (eapply reachable_Inv, reachable_new, Hnew).
  destruct (last (delivered s0 cs)); [reflexivity|].
  unfold new_RowStream in Hnew.
  destruct (_validateOptions _) as [[[? ?] ?]|?]; [|discriminate Hnew].
  injection Hnew as <-. reflexivity.
Qed.

(** ** Cancel and complete events *)

Ltac ev_leaf :=
  unfold EventsInv in *;
  cbn [self env canceling done emitted] in *;
  repeat (cbn [emitted env] || rewrite settle_in_emitted);
  rewrite <- ?app_assoc; cbn [app];
  rewrite ?count_event_app;
  repeat match goal with
         | H : context [if ?b then _ else _] |- _ => is_var b; destruct b
         | H : context [?b = false -> _] |- _ => is_var b; destruct b
         end;
  match goal with
  | H : _ /\ _ /\ _ |- _ =>
      let Hc := fresh "Hc" in
      let Hd0 := fresh "Hd" in
      let Hd1 := fresh "Hd" in
      destruct H as (Hc & Hd0 & Hd1);
      try specialize (Hd0 eq_refl); try specialize (Hd1 eq_refl)
  end;
  repeat match goal with
         | |- context [count_event ?e (?x :: ?l)] =>
             let v := eval vm_compute in (count_event e (x :: l)) in
             change (count_event e (x :: l)) with v
         end;
  repeat split; intros; try discriminate; lia.

Lemma perform_preserves_EventsInv (c : Call) (s : State) :
  EventsInv s -> EventsInv (perform c s).
Proof.
  destruct c as [|cs|x|x|x| |v|e| | |].
  11: {
    unfold EventsInv.
    destruct (microtasks_emitted s) as [-> ->]. auto. }
  all: destruct s as [[b pc rc cp rw cols fn er rd dn cg cl cn pd wr wn wc oc hc]
                 [ps rs ms em sb]].
  all: intros H; unfold_methods; split_cases.
  all: try assumption.
  all: ev_leaf.
Qed.

Lemma reachable_EventsInv (s : State) : reachable s -> EventsInv s.
Proof.
  intros (a & o & s0 & cs & Hnew & ->).
  assert (H0 : EventsInv s0).
  { unfold new_RowStream in Hnew.
    destruct (_validateOptions _) as [[[cp pc] rc]|]; [|discriminate].
    injection Hnew as <-. repeat split; cbn; auto; discriminate. }
  clear Hnew. revert s0 H0.
  induction cs as [|c cs IH]; intros s0 H0; [exact H0|].
  apply IH, perform_preserves_EventsInv, H0.
Qed.

(** X24. In every history 'cancel' is emitted at most once, and exactly
    when the stream starts canceling: the log holds one 'cancel' if the
    stream is canceling and none otherwise. 'complete' is in the log if
    and only if the producer is done. *)
Theorem cancel_once_complete_iff_done (s : State) :
  reachable s ->
  count_event EvCancel (emitted (env s))
    = (if canceling (self s) then 1 else 0)%nat /\
  (done (self s) = true <->
   (1 <= count_event EvComplete (emitted (env s)))%nat).
Proof.
  intros Hs. destruct (reachable_EventsInv s Hs) as (Hc & Hd0 & Hd1).
  split; [exact Hc|]. split; [exact Hd1|].
  destruct (done (self s)); [reflexivity|].
  intros H. rewrite (Hd0 eq_refl) in H. lia.
Qed.
End Stream.

Arguments self {Row} s.
Arguments env {Row} s.
Arguments buf {Row} r.
Arguments fieldNames {Row} r.
Arguments done {Row} r.
Arguments closing {Row} r.
Arguments closed {Row} r.
Arguments canceling {Row} r.
Arguments waitNext {Row} r.
Arguments settlement {Row} s p.
Arguments result {Row A} m s.
Arguments exec {Row A} m s.
Arguments emitted_by {Row A} m s.
Arguments next {Row}.
Arguments close {Row}.
Arguments get_err {Row}.
Arguments isClosed {Row} s.
Arguments size {Row} s.
Arguments Controller_pushRow {Row} r.
Arguments Controller_pushArray {Row} Row_fromArray r.
Arguments Controller_pushObject {Row} Row_fromObject r.
Arguments Controller_error {Row} v.
Arguments CtlSetColumns {Row} cols.
Arguments CtlPushRow {Row} r.
Arguments CtlPushArray {Row} r.
Arguments CtlPushObject {Row} r.
Arguments CtlEnd {Row}.
Arguments CtlError {Row} v.
Arguments RowsNext {Row}.
Arguments RowsClose {Row}.
Arguments Microtasks {Row}.
Arguments is_push {Row} c.
Arguments is_next {Row} c.
Arguments ends_stream {Row} c.
Arguments perform {Row} Row_fromArray Row_fromObject c s.
Arguments run {Row} Row_fromArray Row_fromObject s cs.
Arguments reachable {Row} Row_fromArray Row_fromObject s.
Arguments delivered {Row} Row_fromArray Row_fromObject s cs.
Arguments pushed_row {Row} Row_fromArray Row_fromObject fn c.

(** * Worked instances

    Rows are taken to be plain value lists: [Row.fromArray] keeps the
    values, [Row.fromObject] keeps the values of the record. *)

Local Abbreviation arr :=
  (fun (a : list JsValue) (_ : option (list string)) => a).
Local Abbreviation obj :=
  (fun (o : list (string * JsValue)) (_ : option (list string)) => map snd o).
Local Abbreviation id_cols := [mkColumnInfo "id" "number" false].
Local Abbreviation six_pushes :=
  (map (fun n => @CtlPushArray (list JsValue)
                     [JsNumber n; JsString "the code"])
     [1; 2; 3; 4; 5; 6]).
Local Abbreviation opts_5_3 :=
  (Some (ArgOptions (RowStreamOptions.mk (Some 5) (Some 3)))).

Lemma scenario_A_watermarks_witness :
  exists s0 : State (list JsValue),
    new_RowStream _ opts_5_3 None = Normal s0 /\
    length six_pushes = 6%nat /\
    forallb is_push six_pushes = true /\
    let s1 := run arr obj s0 (CtlSetColumns id_cols :: six_pushes) in
    let p2 := run arr obj s1 [RowsNext; RowsNext] in
    let p3 := perform arr obj RowsNext p2 in
    let p4 := perform arr obj RowsNext p3 in
    count_event EvPause (emitted (env s1)) = 1%nat /\
    size s1 = 6%nat /\
    emitted_by next p2 = [EvResume] /\
    emitted_by next p3 = [] /\
    size p4 = 2%nat /\
    count_event EvResume (emitted (env p4)) = 1%nat.
Proof.
  eexists. split; [reflexivity|]. split; [reflexivity|]. split; [reflexivity|].
  pose proof (scenario_A_watermarks _ arr obj _ id_cols six_pushes
                eq_refl eq_refl eq_refl) as H.
  cbv zeta in H.
  destruct H as (H1 & _ & _ & H2 & _ & _ & _ & H3 & _ & H4 & H5 & H6).
  cbv zeta. repeat split; assumption.
Defined.

(** Scenario A as the specification words it: the fourth pull would be
    the one that emits 'resume'. On the class it is the third. *)
Lemma scenario_A_resume_not_on_fourth_pull :
  exists s0 : State (list JsValue),
    new_RowStream _ opts_5_3 None = Normal s0 /\
    let s1 := run arr obj s0 (CtlSetColumns id_cols :: six_pushes) in
    let p3 := run arr obj s1 [RowsNext; RowsNext; RowsNext] in
    let p4 := perform arr obj RowsNext p3 in
    emitted_by next (run arr obj s1 [RowsNext; RowsNext]) = [EvResume] /\
    ~ (count_event EvPause (emitted (env s1)) = 1%nat /\
       size s1 = 6%nat /\
       size p4 = 2%nat /\
       count_event EvResume (emitted (env p4)) = 1%nat /\
       emitted_by next p3 = [EvResume]).
Proof.
  eexists. split; [reflexivity|]. cbv zeta. split; [reflexivity|].
  intros (_ & _ & _ & _ & H). vm_compute in H. discriminate H.
Qed.

Lemma error_emits_complete_twice_witness :
  exists s0 : State (list JsValue),
    new_RowStream _ None None = Normal s0 /\
    canceling (self s0) = false /\
    emitted_by (Controller_error (JsErrorInstance (mkError "on no"))) s0
      = [EvCancel; EvComplete; EvComplete] /\
    count_event EvComplete
      (emitted_by (Controller_error (JsErrorInstance (mkError "on no"))) s0)
      = 2%nat.
Proof.
  eexists. split; [reflexivity|]. split; [reflexivity|].
  apply error_emits_complete_twice. reflexivity.
Defined.


Lemma close_waits_for_end_witness :
  exists s0 : State (list JsValue),
    new_RowStream _ None None = Normal s0 /\
    reachable arr obj s0 /\
    done (self s0) = false /\
    exists p,
      result close s0 = Normal (Settles p) /\
      emitted_by close s0 = [EvCancel] /\
      let waiting :=
        run arr obj (exec close s0)
          [RowsNext; CtlSetColumns id_cols; CtlPushArray [JsNumber 1];
           Microtasks; RowsClose] in
      settlement waiting p = Some Pending /\
      settlement (perform arr obj CtlEnd waiting) p = Some (Fulfilled VUnit).
Proof.
  eexists. split; [reflexivity|].
  match goal with |- reachable _ _ ?s /\ _ =>
    assert (Hr : reachable arr obj s)
      by (exists None, None; eexists; exists []; split; reflexivity)
  end.
  split; [exact Hr|]. split; [reflexivity|].
  destruct (close_waits_for_end _ arr obj _ Hr eq_refl)
    as (p & Hres & Hev & _ & Hcs).
  exists p. split; [exact Hres|]. split; [exact (Hev eq_refl)|].
  destruct (Hcs [RowsNext; CtlSetColumns id_cols; CtlPushArray [JsNumber 1];
                 Microtasks; RowsClose] eq_refl)
    as (Hp & _ & He & _).
  split; assumption.
Defined.

Lemma rows_delivered_in_push_order_witness :
  exists s0 : State (list JsValue),
    new_RowStream _ (Some (ArgOptions (RowStreamOptions.mk (Some 2) None))) None
      = Normal s0 /\
    let s := perform arr obj (CtlSetColumns id_cols) s0 in
    let cs :=
      [CtlPushArray [JsNumber 1]; RowsNext; RowsNext;
       CtlPushObject [("id", JsNumber 2)]; CtlPushRow [JsNumber 3];
       CtlPushRow [JsNumber 4]; RowsNext] in
    reachable arr obj s /\
    canceling (self s) = false /\
    fieldNames (self s) = Some ["id"] /\
    forallb (fun c => is_push c || is_next c) cs = true /\
    delivered arr obj s cs = [[JsNumber 1]; [JsNumber 2]; [JsNumber 3]] /\
    buf (self (run arr obj s cs)) = [[JsNumber 4]] /\
    delivered arr obj s cs ++ buf (self (run arr obj s cs))
      = buf (self s) ++ flat_map (pushed_row arr obj (Some ["id"])) cs.
Proof.
  eexists. split; [reflexivity|]. cbv zeta.
  match goal with |- reachable _ _ ?s /\ _ =>
    assert (Hr : reachable arr obj s)
      by (exists (Some (ArgOptions (RowStreamOptions.mk (Some 2) None))), None;
          eexists; exists [CtlSetColumns id_cols]; split; reflexivity)
  end.
  split; [exact Hr|]. do 5 (split; [reflexivity|]).
  match goal with |- _ = _ ++ flat_map _ ?cs =>
    exact (proj1 (rows_delivered_in_push_order _ arr obj _ ["id"] cs Hr
                    eq_refl eq_refl eq_refl))
  end.
Defined.

Lemma push_after_cancel_discarded_witness :
  exists s0 : State (list JsValue),
    new_RowStream _ None None = Normal s0 /\
    let s := run arr obj s0 [CtlSetColumns id_cols; RowsClose] in
    let before := [CtlPushRow [JsNumber 1]; RowsNext] in
    let after := [CtlEnd; RowsNext] in
    let c := CtlPushArray [JsNumber 2] in
    canceling (self s) = true /\
    is_push c = true /\
    perform arr obj c (run arr obj s before) = run arr obj s before /\
    size (perform arr obj c (run arr obj s before)) = 0%nat /\
    run arr obj s (before ++ c :: after) = run arr obj s (before ++ after).
Proof.
  eexists. split; [reflexivity|]. cbv zeta.
  match goal with |- canceling (self ?s) = true /\ _ =>
    destruct (push_after_cancel_discarded _ arr obj s
                [CtlPushRow [JsNumber 1]; RowsNext] [CtlEnd; RowsNext]
                (CtlPushArray [JsNumber 2]) eq_refl eq_refl)
      as (H1 & H2 & H3 & _)
  end.
  split; [reflexivity|]. split; [reflexivity|].
  split; [exact H1|]. split; [|exact H3].
  rewrite H2. reflexivity.
Defined.

Lemma backpressure_options_validated_witness :
  (2 <= 10 /\
   exists (s : State (list JsValue)) r,
     construct _ false (RowStreamOptions.mk (Some 10) None) = Normal s /\
     resumeCount _ (self s) = Some r /\ r = 5) /\
  (1 < 2 /\
   construct (list JsValue) true (RowStreamOptions.mk (Some 1) None)
     = Throw (mkError "pauseCount must more than 1")) /\
  (-1 < 0 /\
   exists e,
     construct (list JsValue) false (RowStreamOptions.mk (Some 10) (Some (-1)))
       = Throw e /\
     e = mkError "resumeCount cannot be negative") /\
  (10 >= 10 /\
   exists e,
     construct (list JsValue) false (RowStreamOptions.mk (Some 10) (Some 10))
       = Throw e /\
     e = mkError "resumeCount must be less than pauseCount").
Proof.
  split; [|split; [|split]].
  - split; [lia|].
    destruct (proj1 (backpressure_options_validated (list JsValue) false 10))
      as (s & r & Hs & _ & _ & Hr & Hdiv & _); [lia|].
    exists s, r. repeat split; [exact Hs | exact Hr |].
    rewrite Hdiv. reflexivity.
  - split; [lia|].
    apply (proj1 (proj2 (backpressure_options_validated (list JsValue) true 1))).
    lia.
  - split; [lia|].
    destruct (proj1 (proj2 (proj2
                (backpressure_options_validated (list JsValue) false 10)))
                (-1)) as (e & He & Hmsg); [lia|].
    exists e. split; [exact He|]. apply Hmsg. lia.
  - split; [lia|].
    destruct (proj2 (proj2 (proj2
                (backpressure_options_validated (list JsValue) false 10)))
                10) as (e & He & Hmsg); [lia|].
    exists e. split; [exact He|]. apply Hmsg; lia.
Defined.


Lemma second_next_rejected_witness :
  exists s0 : State (list JsValue),
    new_RowStream _ None None = Normal s0 /\
    let s := perform arr obj RowsNext s0 in
    closed (self s) = false /\ closing (self s) = false /\
    waitNext (self s) = Some 0%nat /\
    result next s
      = Normal (Thrown (mkError "Existing next() call has not yet resolved")) /\
    exec next s = s /\
    settlement (exec next s) 0 = Some Pending.
Proof.
  eexists. split; [reflexivity|]. cbv zeta.
  match goal with |- closed (self ?s) = false /\ _ =>
    destruct (second_next_rejected _ s 0%nat eq_refl eq_refl eq_refl)
      as (_ & H1 & H2 & _ & H3)
  end.
  do 3 (split; [reflexivity|]).
  split; [exact H1|]. split; [exact H2|]. rewrite H3. reflexivity.
Defined.

(** A second [next()] read as a failure at the call site: on the class
    the call does not throw. *)
Lemma second_next_does_not_throw :
  exists s0 : State (list JsValue),
    new_RowStream _ None None = Normal s0 /\
    let s := perform arr obj RowsNext s0 in
    waitNext (self s) = Some 0%nat /\
    ~ (exists e, result next s = Throw e).
Proof.
  eexists. split; [reflexivity|]. cbv zeta. split; [reflexivity|].
  intros [e He]. vm_compute in He. discriminate He.
Qed.

(** ** Instances of the further properties *)

Arguments err {Row} r.
Arguments ready {Row} r.
Arguments paused {Row} r.
Arguments canPause {Row} r.
Arguments waitClose {Row} r.
Arguments stats {Row} s.
Arguments get_row {Row}.
Arguments get_columns {Row}.
Arguments get_columnTypes {Row}.
Arguments iterator_return {Row}.
Arguments for_await {Row} fuel s.
Arguments IterDone {Row}.
Arguments Controller_end {Row}.
Arguments Controller_ready {Row}.
Arguments Controller_setColumns {Row} cols.
Arguments canceler_fire {Row} e.
Arguments run_microtasks {Row}.
Arguments CancelerFire {Row} e.

Local Abbreviation two_rows_then_end :=
  [@CtlSetColumns (list JsValue) id_cols; CtlPushArray [JsNumber 1];
   CtlPushArray [JsNumber 2]; CtlEnd].

Lemma end_resolves_pending_pull_witness :
  exists s0 : State (list JsValue),
    new_RowStream _ None None = Normal s0 /\
    let s := perform arr obj RowsNext s0 in
    reachable arr obj s /\
    waitNext (self s) = Some 0%nat /\
    let s' := exec Controller_end s in
    settlement s' 0 = Some (Fulfilled (VBool false)) /\
    isClosed s' = true /\
    waitNext (self s') = None /\
    err (self s') = None /\
    emitted_by Controller_end s = [EvComplete].
Proof.
  eexists. split; [reflexivity|]. cbv zeta.
  match goal with |- reachable _ _ ?s /\ _ =>
    assert (Hr : reachable arr obj s)
      by (exists None, None; eexists; exists [RowsNext]; split; reflexivity)
  end.
  split; [exact Hr|]. split; [reflexivity|].
  exact (end_resolves_pending_pull _ arr obj _ 0%nat Hr eq_refl).
Defined.

Lemma next_after_end_witness :
  exists s0 : State (list JsValue),
    new_RowStream _ None None = Normal s0 /\
    let s := run arr obj s0 two_rows_then_end in
    reachable arr obj s /\
    done (self s) = true /\ closed (self s) = false /\
    buf (self s) = [[JsNumber 1]; [JsNumber 2]] /\
    match buf (self s) with
    | r :: rest =>
        result next s = Normal (Returned true) /\
        result get_row (exec next s) = Normal r /\
        buf (self (exec next s)) = rest /\
        closed (self (exec next s)) = false /\
        done (self (exec next s)) = true
    | [] =>
        result next s = Normal (Returned false) /\
        closed (self (exec next s)) = true /\
        emitted_by next s = []
    end.
Proof.
  eexists. split; [reflexivity|]. cbv zeta.
  match goal with |- reachable _ _ ?s /\ _ =>
    assert (Hr : reachable arr obj s)
      by (exists None, None; eexists; exists two_rows_then_end;
          split; reflexivity)
  end.
  split; [exact Hr|]. do 3 (split; [reflexivity|]).
  exact (next_after_end _ arr obj _ Hr eq_refl eq_refl).
Defined.

Lemma for_await_drains_witness :
  exists s0 : State (list JsValue),
    new_RowStream _ None None = Normal s0 /\
    let s := run arr obj s0 two_rows_then_end in
    reachable arr obj s /\
    done (self s) = true /\ closed (self s) = false /\
    exists s',
      for_await 3 s = ([[JsNumber 1]; [JsNumber 2]], Some IterDone, s') /\
      closed (self s') = true /\ buf (self s') = [].
Proof.
  eexists. split; [reflexivity|]. cbv zeta.
  match goal with |- reachable _ _ ?s /\ _ =>
    assert (Hr : reachable arr obj s)
      by (exists None, None; eexists; exists two_rows_then_end;
          split; reflexivity)
  end.
  split; [exact Hr|]. do 2 (split; [reflexivity|]).
  exact (for_await_drains _ arr obj _ Hr eq_refl eq_refl).
Defined.


Lemma columns_round_trip_witness :
  exists s0 : State (list JsValue),
    new_RowStream _ None None = Normal s0 /\
    let cs := [CtlPushArray [JsNumber 1]; RowsNext; CtlEnd; RowsClose] in
    forallb (fun c => match c with CtlSetColumns _ => false | _ => true end) cs
      = true /\
    let s' := run arr obj (exec (Controller_setColumns id_cols) s0) cs in
    result get_columnTypes s' = Normal id_cols /\
    result get_columns s' = Normal ["id"] /\
    (forall cols',
       result get_columnTypes (exec (Controller_setColumns cols') s')
         = Normal cols').
Proof.
  eexists. split; [reflexivity|]. cbv zeta. split; [reflexivity|].
  match goal with |- result _ (run _ _ (exec _ ?s) ?cs) = _ /\ _ =>
    exact (columns_round_trip _ arr obj s id_cols cs eq_refl)
  end.
Defined.

Lemma end_sets_empty_columns_witness :
  exists s0 : State (list JsValue),
    new_RowStream _ None None = Normal s0 /\
    ready (self s0) = false /\
    result get_columns (exec Controller_end s0) = Normal [] /\
    result get_columnTypes (exec Controller_end s0) = Normal [] /\
    ready (self (exec Controller_end s0)) = true.
Proof.
  eexists. split; [reflexivity|].
  match goal with |- ready (self ?s) = false /\ _ =>
    split; [reflexivity | exact (end_sets_empty_columns _ s eq_refl)]
  end.
Defined.

Lemma ready_once_started_witness :
  exists s0 : State (list JsValue),
    new_RowStream _ None None = Normal s0 /\
    let s := perform arr obj RowsClose s0 in
    reachable arr obj s /\
    canceling (self s) = true /\
    ready (self s) = true.
Proof.
  eexists. split; [reflexivity|]. cbv zeta.
  match goal with |- reachable _ _ ?s /\ _ =>
    assert (Hr : reachable arr obj s)
      by (exists None, None; eexists; exists [RowsClose]; split; reflexivity)
  end.
  split; [exact Hr|]. split; [reflexivity|].
  apply (ready_once_started _ arr obj _ Hr).
  right; right; right; left; reflexivity.
Defined.

Lemma ready_resolution_witness :
  exists s0 : State (list JsValue),
    new_RowStream _ None None = Normal s0 /\
    reachable arr obj s0 /\
    ready (self s0) = false /\
    exists p,
      result Controller_ready s0 = Normal (Settles p) /\
      let s1 := exec Controller_ready s0 in
      settlement s1 p = Some Pending /\
      result Controller_ready s1 = Normal (Settles p) /\
      exec Controller_ready s1 = s1 /\
      (forall cols, settlement (perform arr obj (CtlSetColumns cols) s1) p
                    = Some (Fulfilled (VError None))) /\
      settlement (perform arr obj CtlEnd s1) p
        = Some (Fulfilled (VError None)) /\
      settlement (perform arr obj RowsClose s1) p
        = Some (Fulfilled (VError None)) /\
      (forall v, settlement (perform arr obj (CtlError v) s1) p
                 = Some (Fulfilled (VError (Some (normalize_error v))))) /\
      (forall e, subscribed (env s1) = true ->
                 settlement (perform arr obj (CancelerFire e) s1) p
                 = Some (Fulfilled (VError (Some e)))).
Proof.
  eexists. split; [reflexivity|].
  match goal with |- reachable _ _ ?s /\ _ =>
    assert (Hr : reachable arr obj s)
      by (exists None, None; eexists; exists []; split; reflexivity)
  end.
  split; [exact Hr|]. split; [reflexivity|].
  exact (proj2 (ready_resolution _ arr obj _ Hr) eq_refl).
Defined.

Lemma canceler_released_witness :
  exists s0 : State (list JsValue),
    new_RowStream _ (Some ArgCanceler) None = Normal s0 /\
    reachable arr obj s0 /\
    subscribed (env s0) = true /\
    subscribed (env (exec close s0)) = false /\
    (forall e, subscribed (env (exec (canceler_fire e) s0)) = false) /\
    (forall v, subscribed (env (exec (Controller_error v) s0)) = false).
Proof.
  eexists. split; [reflexivity|].
  match goal with |- reachable _ _ ?s /\ _ =>
    assert (Hr : reachable arr obj s)
      by (exists (Some ArgCanceler), None; eexists; exists [];
          split; reflexivity)
  end.
  split; [exact Hr|]. split; [reflexivity|].
  exact (proj2 (canceler_released _ arr obj _ Hr)).
Defined.

Lemma external_cancellation_witness :
  exists s0 : State (list JsValue),
    new_RowStream _ (Some ArgCanceler) None = Normal s0 /\
    let s := perform arr obj RowsNext s0 in
    let e := mkError "context canceled" in
    reachable arr obj s /\
    subscribed (env s) = true /\
    waitNext (self s) = Some 0%nat /\
    let s' := exec (canceler_fire e) s in
    err (self s') = Some e /\
    done (self s') = true /\ canceling (self s') = true /\
    closed (self s') = true /\
    waitNext (self s') = None /\
    settlement s' 0 = Some (Rejected e) /\
    emitted_by (canceler_fire e) s = [EvCancel; EvComplete] /\
    (forall e', exec (canceler_fire e') s' = s').
Proof.
  eexists. split; [reflexivity|]. cbv zeta.
  match goal with |- reachable _ _ ?s /\ _ =>
    assert (Hr : reachable arr obj s)
      by (exists (Some ArgCanceler), None; eexists; exists [RowsNext];
          split; reflexivity)
  end.
  split; [exact Hr|]. do 2 (split; [reflexivity|]).
  destruct (external_cancellation _ arr obj _ (mkError "context canceled")
              Hr eq_refl) as (H1 & H2 & H3 & H4 & H5 & H6 & H7 & H8).
  do 5 (split; [assumption|]).
  split; [exact (H6 0%nat eq_refl)|]. split; assumption.
Defined.

Lemma pause_resume_alternate_witness :
  exists s0 : State (list JsValue),
    new_RowStream _ opts_5_3 None = Normal s0 /\
    let s := run arr obj s0
               (CtlSetColumns id_cols :: six_pushes
                ++ [RowsNext; RowsNext; RowsNext]) in
    reachable arr obj s /\
    emitted (env s) = [EvPause; EvResume] /\
    replay_backpressure false (emitted (env s))
      = Some (stats_paused (stats s)).
Proof.
  eexists. split; [reflexivity|]. cbv zeta.
  match goal with |- reachable _ _ ?s /\ _ =>
    assert (Hr : reachable arr obj s)
      by (exists opts_5_3, None; eexists;
          exists (CtlSetColumns id_cols :: six_pushes
                  ++ [RowsNext; RowsNext; RowsNext]);
          split; reflexivity)
  end.
  split; [exact Hr|]. split; [reflexivity|].
  exact (pause_resume_alternate _ arr obj _ Hr).
Defined.

Lemma no_backpressure_without_options_witness :
  exists s0 : State (list JsValue),
    new_RowStream _ (Some ArgCanceler) None = Normal s0 /\
    let s := run arr obj s0 (CtlSetColumns id_cols :: six_pushes) in
    size s = 6%nat /\
    count_event EvPause (emitted (env s)) = 0%nat /\
    count_event EvResume (emitted (env s)) = 0%nat /\
    paused (self s) = false /\
    canPause (self s) = false.
Proof.
  eexists. split; [reflexivity|]. cbv zeta. split; [reflexivity|].
  exact (no_backpressure_without_options _ arr obj true _
           (CtlSetColumns id_cols :: six_pushes) eq_refl).
Defined.

Lemma paused_tracks_watermarks_witness :
  exists s0 : State (list JsValue),
    new_RowStream _ opts_5_3 None = Normal s0 /\
    let s := run arr obj s0 (CtlSetColumns id_cols :: six_pushes) in
    reachable arr obj s /\
    canPause (self s) = true /\
    paused (self s) = true /\
    exists pc rc,
      pauseCount _ (self s) = Some pc /\ resumeCount _ (self s) = Some rc /\
      0 <= rc < pc /\
      (paused (self s) = false -> Z.of_nat (size s) < pc) /\
      (paused (self s) = true -> rc < Z.of_nat (size s)).
Proof.
  eexists. split; [reflexivity|]. cbv zeta.
  match goal with |- reachable _ _ ?s /\ _ =>
    assert (Hr : reachable arr obj s)
      by (exists opts_5_3, None; eexists;
          exists (CtlSetColumns id_cols :: six_pushes); split; reflexivity)
  end.
  split; [exact Hr|]. do 2 (split; [reflexivity|]).
  exact (paused_tracks_watermarks _ arr obj _ Hr eq_refl).
Defined.

Lemma pending_pull_survives_close_witness :
  exists s0 : State (list JsValue),
    new_RowStream _ None None = Normal s0 /\
    let s := perform arr obj RowsNext s0 in
    reachable arr obj s /\
    waitNext (self s) = Some 0%nat /\
    let s1 := exec close s in
    let s2 := exec Controller_end s1 in
    let s3 := exec run_microtasks s2 in
    settlement s1 0 = Some Pending /\
    waitNext (self s1) = None /\
    settlement s2 0 = Some Pending /\
    isClosed s2 = true /\
    settlement s3 0 = Some (Fulfilled (VBool false)).
Proof.
  eexists. split; [reflexivity|]. cbv zeta.
  match goal with |- reachable _ _ ?s /\ _ =>
    assert (Hr : reachable arr obj s)
      by (exists None, None; eexists; exists [RowsNext]; split; reflexivity)
  end.
  split; [exact Hr|]. split; [reflexivity|].
  exact (pending_pull_survives_close _ arr obj _ 0%nat Hr eq_refl).
Defined.

Lemma push_hands_row_to_pending_pull_witness :
  exists s0 : State (list JsValue),
    new_RowStream _ (Some (ArgOptions (RowStreamOptions.mk (Some 2) None))) None
      = Normal s0 /\
    let s := run arr obj s0 [CtlSetColumns id_cols; RowsNext] in
    let c := CtlPushObject [("id", JsNumber 7)] in
    reachable arr obj s /\
    waitNext (self s) = Some 0%nat /\
    fieldNames (self s) = Some ["id"] /\
    is_push c = true /\
    exists r,
      pushed_row arr obj (Some ["id"]) c = [r] /\
      settlement (perform arr obj c s) 0 = Some (Fulfilled (VBool true)) /\
      result get_row (perform arr obj c s) = Normal r /\
      buf (self (perform arr obj c s)) = [] /\
      waitNext (self (perform arr obj c s)) = None /\
      emitted (env (perform arr obj c s)) = emitted (env s) /\
      paused (self (perform arr obj c s)) = paused (self s).
Proof.
  eexists. split; [reflexivity|]. cbv zeta.
  match goal with |- reachable _ _ ?s /\ _ =>
    assert (Hr : reachable arr obj s)
      by (exists (Some (ArgOptions (RowStreamOptions.mk (Some 2) None))), None;
          eexists; exists [CtlSetColumns id_cols; RowsNext];
          split; reflexivity)
  end.
  split; [exact Hr|]. do 3 (split; [reflexivity|]).
  exact (push_hands_row_to_pending_pull _ arr obj _ 0%nat ["id"]
           (CtlPushObject [("id", JsNumber 7)]) Hr eq_refl eq_refl eq_refl).
Defined.

Lemma no_delivery_after_close_witness :
  exists s0 : State (list JsValue),
    new_RowStream _ None None = Normal s0 /\
    let s := run arr obj s0 [CtlSetColumns id_cols; CtlPushArray [JsNumber 1]] in
    let cs := [CtlPushArray [JsNumber 2]; RowsNext; CtlEnd; RowsNext;
               Microtasks] in
    reachable arr obj s /\
    size s = 1%nat /\
    delivered arr obj (exec close s) cs = [] /\
    (closing (self (run arr obj (exec close s) cs)) = true \/
     closed (self (run arr obj (exec close s) cs)) = true).
Proof.
  eexists. split; [reflexivity|]. cbv zeta.
  match goal with |- reachable _ _ ?s /\ _ =>
    assert (Hr : reachable arr obj s)
      by (exists None, None; eexists;
          exists [CtlSetColumns id_cols; CtlPushArray [JsNumber 1]];
          split; reflexivity)
  end.
  split; [exact Hr|]. split; [reflexivity|].
  exact (no_delivery_after_close _ arr obj _
           [CtlPushArray [JsNumber 2]; RowsNext; CtlEnd; RowsNext; Microtasks]
           Hr).
Defined.

Lemma next_after_close_witness :
  exists s0 : State (list JsValue),
    new_RowStream _ None None = Normal s0 /\
    let s := perform arr obj RowsClose s0 in
    reachable arr obj s /\
    closing (self s) = true /\
    exists c,
      waitClose (self s) = Some c /\
      settlement s c = Some Pending /\
      result next s = Normal (AwaitThen c false) /\
      exec next s = s.
Proof.
  eexists. split; [reflexivity|]. cbv zeta.
  match goal with |- reachable _ _ ?s /\ _ =>
    assert (Hr : reachable arr obj s)
      by (exists None, None; eexists; exists [RowsClose]; split; reflexivity)
  end.
  split; [exact Hr|]. split; [reflexivity|].
  exact (proj2 (next_after_close _ arr obj _ Hr) eq_refl).
Defined.

Lemma row_is_last_delivered_witness :
  exists s0 : State (list JsValue),
    new_RowStream _ None None = Normal s0 /\
    let cs := [CtlSetColumns id_cols; CtlPushArray [JsNumber 1];
               CtlPushArray [JsNumber 2]; RowsNext; CtlPushArray [JsNumber 3];
               CtlError (JsString "bork")] in
    delivered arr obj s0 cs = [[JsNumber 1]] /\
    result get_row (run arr obj s0 [CtlSetColumns id_cols])
      = Throw (mkError "No row loaded. Call next()") /\
    result get_row (run arr obj s0 cs) = Normal [JsNumber 1].
Proof.
  eexists. split; [reflexivity|]. cbv zeta. split; [reflexivity|]. split.
  - exact (row_is_last_delivered _ arr obj None None _
             [CtlSetColumns id_cols] eq_refl).
  - exact (row_is_last_delivered _ arr obj None None _
             [CtlSetColumns id_cols; CtlPushArray [JsNumber 1];
              CtlPushArray [JsNumber 2]; RowsNext; CtlPushArray [JsNumber 3];
              CtlError (JsString "bork")] eq_refl).
Defined.

Lemma cancel_once_complete_iff_done_witness :
  exists s0 : State (list JsValue),
    new_RowStream _ None None = Normal s0 /\
    let s := run arr obj s0 [RowsClose; CtlError (JsString "bork"); RowsClose] in
    reachable arr obj s /\
    canceling (self s) = true /\
    done (self s) = true /\
    count_event EvCancel (emitted (env s)) = 1%nat /\
    (1 <= count_event EvComplete (emitted (env s)))%nat.
Proof.
  eexists. split; [reflexivity|]. cbv zeta.
  match goal with |- reachable _ _ ?s /\ _ =>
    assert (Hr : reachable arr obj s)
      by (exists None, None; eexists;
          exists [RowsClose; CtlError (JsString "bork"); RowsClose];
          split; reflexivity)
  end.
  split; [exact Hr|]. do 2 (split; [reflexivity|]).
  destruct (cancel_once_complete_iff_done _ arr obj _ Hr) as [Hc Hd].
  split; [exact Hc | exact (proj1 Hd eq_refl)].
Defined.
